(** * boost::math::big_whole -- an arbitrary-length whole number kept as a
      valarray of machine words (include/boost/math/big_whole_core.hpp).

    The embedding follows the header function by function.

    - [word_type] is [unsigned int]: a [Z] in [0, 2^digits), every
      arithmetic result wrapped by [to_word]; [digits] is
      [limits_type::digits], taken as 32 (the header needs no more of it
      than to be positive), and [uintmax_t] has 64 bits.
    - [va_type] is [std::valarray<word_type>], least significant word
      first: a [list Z].  [mask_type] is [valarray<bool>], [index_type]
      is [valarray<size_t>].
    - [x_] is the [auto_ptr<va_type>]: [None] is the null pointer.
    - Bit indices and sizes ([size_t], and the [int] counters of the
      loops) are natural numbers: the model covers indices that fit
      those types.
    - Overloads get one name each: [length_] is [length()], [bit_change]
      and [bit_change1] are the range and the single-bit form, and
      likewise [set_range]/[set], [reset_all]/[reset_range]/[reset],
      [flip_range]/[flip], [reverse_cap]/[reverse].
    - A subscript [a[i]] is only defined for [i < a.size()].  Read loops
      whose index is bounded by the size of the array they read are
      total functions here; the mutators that compute where they write
      from their arguments ([bit_change], [bits_assign]) run in the
      [option] monad, [None] standing for a read or write outside the
      array or through a null pointer.  Taking the address of an element
      reads and writes nothing. *)

From Stdlib Require Import ZArith Lia Bool Sorted.
From stdpp Require Import base option list numbers.

Module BigWhole.

(** ** Machine words *)

Definition digits : nat := 32.
Definition uintmax_digits : nat := 64.

Abbreviation word_type := Z (only parsing).
Abbreviation va_type := (list Z) (only parsing).
Abbreviation mask_type := (list bool) (only parsing).
Abbreviation index_type := (list nat) (only parsing).

(** Conversion to [word_type] and to [uintmax_t]: reduction modulo the
    width of the type. *)
Definition to_word (z : Z) : Z := (z mod 2 ^ Z.of_nat digits)%Z.
Definition to_uintmax_t (z : Z) : Z := (z mod 2 ^ Z.of_nat uintmax_digits)%Z.

(** [limits_type::max()] and [limits_type::min()]. *)
Definition word_max : Z := (2 ^ Z.of_nat digits - 1)%Z.
Definition word_min : Z := 0%Z.

(** [w << n], [~w] and [a - b] on [word_type]. *)
Definition wshl (w : Z) (n : nat) : Z := to_word (Z.shiftl w (Z.of_nat n)).
Definition wnot (w : Z) : Z := to_word (Z.lnot w).
Definition wsub (a b : Z) : Z := to_word (a - b).
Definition wadd (a b : Z) : Z := to_word (a + b).

(** Conversion of a word to [bool]: non-zero. *)
Definition nonzero (w : Z) : bool := negb (w =? 0)%Z.

(** A value that an [unsigned int] can hold. *)
Definition word_ok (w : Z) : bool := ((0 <=? w) && (w <? 2 ^ Z.of_nat digits))%Z.
Definition va_ok (v : va_type) : bool := forallb word_ok v.

(** ** The object *)

Record big_whole := mk_big_whole { x_ : option va_type }.

Definition big_whole_ok (w : big_whole) : bool :=
  match x_ w with
  | Some v => va_ok v
  | None => true
  end.

(** The words behind the pointer; none when the pointer is null. *)
Definition words (w : big_whole) : va_type := default [] (x_ w).

(** ** Static helpers *)

Definition words_for_bits (bits : nat) : nat :=
  bits / digits + (if decide (0 ≠ bits mod digits) then 1 else 0).

(** [wlength]: [i = v.size(); while (i && !v[i-1]) --i;] *)
Fixpoint wlength_loop (v : va_type) (i : nat) : nat :=
  match i with
  | 0 => 0
  | S i' => if nonzero (nth i' v 0%Z) then i else wlength_loop v i'
  end.

Definition wlength (v : va_type) : nat := wlength_loop v (length v).

(** [blength]: [i = digits; while (i && !(w & (1u << (i-1)))) --i;] *)
Fixpoint blength_loop (w : Z) (i : nat) : nat :=
  match i with
  | 0 => 0
  | S i' => if nonzero (Z.land w (wshl 1 i')) then i else blength_loop w i'
  end.

Definition blength (w : Z) : nat := blength_loop w digits.

(** [count_set_bits_for_word]:
    [for (i = 0; w && i < digits; ++i, w >>= 1) c += (0u != (w & 1u));]
    with [n] the iterations left. *)
Fixpoint count_set_bits_loop (w c : Z) (n : nat) : Z :=
  match n with
  | 0 => c
  | S n' =>
      if nonzero w
      then count_set_bits_loop (Z.shiftr w 1)
             (wadd c (if nonzero (Z.land w 1) then 1 else 0)) n'
      else c
  end.

Definition count_set_bits_for_word (w : Z) : Z :=
  count_set_bits_loop w 0 digits.

(** [valarray::sum()] and [valarray::max()] on words.  Both are only
    called on a non-empty array. *)
Definition va_sum (v : va_type) : Z :=
  match v with
  | [] => 0%Z
  | x :: l => fold_left wadd l x
  end.

Definition va_max (v : va_type) : Z :=
  match v with
  | [] => 0%Z
  | x :: l => fold_left Z.max l x
  end.

(** [uintmax_to_va] *)
Fixpoint uintmax_to_va_loop (v : Z) (temp : va_type) (words_used n : nat)
  : va_type * nat :=
  match n with
  | 0 => (temp, words_used)
  | S n' =>
      if nonzero v
      then uintmax_to_va_loop (Z.shiftr v (Z.of_nat digits))
             (<[words_used := to_word v]> temp) (S words_used) n'
      else (temp, words_used)
  end.

Definition uintmax_to_va (v : Z) : va_type :=
  if decide (digits < uintmax_digits) then
    let s := words_for_bits uintmax_digits in
    let '(temp, words_used) := uintmax_to_va_loop v (replicate s 0%Z) 0 s in
    if decide (words_used ≠ 0) then take words_used temp else []
  else [to_word v].

(** [bit_vector_to_va]: the loop over [b], [i] the index of its head. *)
Fixpoint bit_vector_to_va_loop (b : mask_type) (i : nat) (temp : va_type)
  : va_type :=
  match b with
  | [] => temp
  | bi :: b' =>
      bit_vector_to_va_loop b' (S i)
        (if bi
         then alter (λ x, Z.lor x (wshl 1 (i mod digits))) (i / digits) temp
         else temp)
  end.

Definition bit_vector_to_va (b : mask_type) : va_type :=
  let bs := length b in
  if decide (bs ≠ 0)
  then bit_vector_to_va_loop b 0 (replicate (words_for_bits bs) 0%Z)
  else [].

(** [temp[i] = true] for an index array [i]. *)
Definition mask_assign_true (i : index_type) (temp : mask_type) : mask_type :=
  fold_left (λ m k, <[k := true]> m) i temp.

(** [bit_indices_to_va] *)
Definition bit_indices_to_va (i : index_type) : va_type :=
  bit_vector_to_va
    (if decide (length i ≠ 0)
     then mask_assign_true i (replicate (max_list i + 1) false)
     else []).

(** ** Constructors, assignment *)

Definition zero : big_whole := mk_big_whole None.

Definition copy (other : big_whole) : big_whole :=
  mk_big_whole (match x_ other with Some v => Some v | None => None end).

Definition from_uintmax (v : Z) : big_whole :=
  mk_big_whole (Some (uintmax_to_va v)).

Definition from_bit_vector (b : mask_type) : big_whole :=
  mk_big_whole (Some (bit_vector_to_va b)).

Definition from_bit_indices (i : index_type) : big_whole :=
  mk_big_whole (Some (bit_indices_to_va i)).

(** [swap] exchanges the two pointers; the pair is the receiver and the
    argument after the call. *)
Definition swap (this other : big_whole) : big_whole * big_whole :=
  (other, this).

(** [assign] and [reconfigure] build the new value and swap it in; the
    receiver's old buffer dies with the temporary. *)
Definition assign (this other : big_whole) : big_whole := copy other.
Definition assign_uintmax (this : big_whole) (v : Z) : big_whole := from_uintmax v.
Definition reconfigure_mask (this : big_whole) (b : mask_type) : big_whole :=
  from_bit_vector b.
Definition reconfigure (this : big_whole) (i : index_type) : big_whole :=
  from_bit_indices i.

(** ** Value-accessing members *)

(** [to_uintmax]: [for (i = v->size(); i > 0; --i)
    { temp <<= digits; temp |= v[i-1]; }] *)
Fixpoint to_uintmax_loop (v : va_type) (i : nat) (temp : Z) : Z :=
  match i with
  | 0 => temp
  | S i' =>
      to_uintmax_loop v i'
        (Z.lor (to_uintmax_t (Z.shiftl temp (Z.of_nat digits)))
               (to_uintmax_t (nth i' v 0%Z)))
  end.

Definition to_uintmax (w : big_whole) : Z :=
  if decide (digits < uintmax_digits) then
    match x_ w with
    | Some v => to_uintmax_loop v (length v) 0%Z
    | None => 0%Z
    end
  else
    match x_ w with
    | Some (w0 :: _) => w0
    | _ => 0%Z
    end.

(** [to_bit_indices]: the inner loop over the bits of one word ([j] the
    bit, [jj] its index in the whole value, [n] the iterations left) and
    the outer loop over the words. *)
Fixpoint word_bit_indices (w : Z) (j jj n : nat) : index_type :=
  match n with
  | 0 => []
  | S n' =>
      (if nonzero (Z.land (wshl 1 j) w) then [jj] else [])
        ++ word_bit_indices w (S j) (S jj) n'
  end.

Fixpoint to_bit_indices_loop (v : va_type) (ii : nat) : index_type :=
  match v with
  | [] => []
  | w :: v' => word_bit_indices w 0 ii digits ++ to_bit_indices_loop v' (ii + digits)
  end.

Definition to_bit_indices (w : big_whole) : index_type :=
  match x_ w with
  | Some v => to_bit_indices_loop v 0
  | None => []
  end.

Definition to_bit_vector (w : big_whole) : mask_type :=
  let indices := to_bit_indices w in
  if decide (length indices ≠ 0)
  then mask_assign_true indices (replicate (max_list indices + 1) false)
  else [].

(** ** Bit-inspecting members *)

Definition length_ (w : big_whole) : nat :=
  match x_ w with
  | Some v =>
      match wlength v with
      | 0 => 0
      | S oo => blength (nth oo v 0%Z) + oo * digits
      end
  | None => 0
  end.

Definition count (w : big_whole) : nat :=
  match x_ w with
  | Some v =>
      if decide (length v ≠ 0)
      then Z.to_nat (va_sum (count_set_bits_for_word <$> v))
      else 0
  | None => 0
  end.

Definition any (w : big_whole) : bool :=
  match x_ w with
  | Some v => if decide (length v ≠ 0) then nonzero (va_max v) else false
  | None => false
  end.

Definition none (w : big_whole) : bool := negb (any w).

Definition test (w : big_whole) (i : nat) : bool :=
  match x_ w with
  | Some v =>
      let wi := i / digits in
      let wj := i mod digits in
      if decide (wi < length v)
      then nonzero (Z.land (nth wi v 0%Z) (wshl 1 wj))
      else false
  | None => false
  end.

(** [tests(from, to)] *)
Definition tests (w : big_whole) (from to : nat) : big_whole :=
  let '(from, to) := if decide (to < from) then (to, from) else (from, to) in
  let ids := to_bit_indices w in
  let new_ids := filter (λ i, from ≤ i ∧ i ≤ to) ids in
  let new_ids :=
    if decide (length new_ids ≠ 0) then (λ i, i - from) <$> new_ids else new_ids in
  from_bit_indices new_ids.

(** [reverse(cap)] and [reverse()] *)
Definition reverse_cap (w : big_whole) (cap : nat) : big_whole :=
  let ids := to_bit_indices w in
  let new_ids := filter (λ i, i ≤ cap) ids in
  from_bit_indices ((λ i, cap - i) <$> new_ids).

Definition reverse (w : big_whole) : big_whole :=
  if any w then reverse_cap w (length_ w - 1) else copy w.

(** ** Bit-twiddling members *)

Inductive bit_operation := reset_bit | set_bit | flip_bit.

Definition is_reset (op : bit_operation) : bool :=
  match op with reset_bit => true | _ => false end.

(** [v ? v->size() : 0] for [v = x_.get()]. *)
Definition size_of (w : big_whole) : nat :=
  match x_ w with
  | Some v => length v
  | None => 0
  end.

(** [dst[slice(start, src.size(), 1)] = src] *)
Definition slice_assign (dst : va_type) (start : nat) (src : va_type) : va_type :=
  take start dst ++ src ++ drop (start + length src) dst.

(** The reallocation of [bit_change]: a zeroed array of [n] words that
    receives the old words, installed in [x_]. *)
Definition grow (w : big_whole) (n : nat) : big_whole :=
  let p := replicate n 0%Z in
  mk_big_whole
    (Some (match x_ w with
           | Some v => if decide (length v ≠ 0) then slice_assign p 0 v else p
           | None => p
           end)).

(** [v[i] = f(v[i])] through [v = x_.get()]: undefined for a null [v]
    and for [i] outside the array. *)
Definition word_update (f : Z → Z) (i : nat) (w : big_whole) : option big_whole :=
  match x_ w with
  | Some v =>
      if decide (i < length v)
      then Some (mk_big_whole (Some (alter f i v)))
      else None
  | None => None
  end.

(** [v[slice(start, len, 1)] = f(v[slice(start, len, 1)])], likewise. *)
Definition slice_update (f : Z → Z) (start len : nat) (w : big_whole)
  : option big_whole :=
  match x_ w with
  | Some v =>
      if decide (start + len ≤ length v)
      then Some (mk_big_whole
                   (Some (slice_assign v start (f <$> take len (drop start v)))))
      else None
  | None => None
  end.

(** The [switch (op)] on one word with mask [m]: the shape shared by
    the single-word, lowest-word and highest-word cases of the range
    form and by the single-bit form. *)
Definition change_word (op : bit_operation) (i : nat) (m : Z) (v_size : nat)
    (w : big_whole) : option big_whole :=
  match op with
  | flip_bit => word_update (λ x, Z.lxor x m) i w
  | set_bit => word_update (λ x, Z.lor x m) i w
  | reset_bit =>
      if decide (i < v_size)
      then word_update (λ x, Z.land x (wnot m)) i w
      else Some w
  end.

(** The [switch (op)] on the whole words strictly between. *)
Definition change_slice (op : bit_operation) (start len : nat) (w : big_whole)
  : option big_whole :=
  match op with
  | flip_bit => slice_update (λ x, Z.lxor x word_max) start len w
  | set_bit => slice_update (λ _, word_max) start len w
  | reset_bit => slice_update (λ _, word_min) start len w
  end.

(** [bit_change(from, to, op)] *)
Definition bit_change (w : big_whole) (from to : nat) (op : bit_operation)
  : option big_whole :=
  let '(from, to) := if decide (to < from) then (to, from) else (from, to) in
  let fi := from / digits in
  let fj := from mod digits in
  let ti := to / digits in
  let tj := to mod digits in
  let v_size := size_of w in
  let fm := wnot (wsub (wshl 1 fj) 1) in
  let tm := Z.lor (wshl 1 tj) (wsub (wshl 1 tj) 1) in
  let grown := bool_decide (v_size ≤ ti) && negb (is_reset op) in
  let w := if grown then grow w (ti + 1) else w in
  let v_size := if grown then size_of w else v_size in
  if decide (fi = ti) then
    change_word op fi (Z.land fm tm) v_size w
  else
    w ← change_word op fi fm v_size w;
    let start := fi + 1 in
    let stop := v_size `min` ti in
    w ← (if decide (start < stop)
         then change_slice op start (stop - start) w
         else Some w);
    change_word op ti tm v_size w.

(** [bit_change(i, op)] *)
Definition bit_change1 (w : big_whole) (i : nat) (op : bit_operation)
  : option big_whole :=
  let ii := i / digits in
  let v_size := size_of w in
  let grown := bool_decide (v_size ≤ ii) && negb (is_reset op) in
  let w := if grown then grow w (ii + 1) else w in
  let v_size := if grown then size_of w else v_size in
  let ij := i mod digits in
  let m := wshl 1 ij in
  change_word op ii m v_size w.

Definition reset_all (w : big_whole) : big_whole := mk_big_whole None.

Definition reset_range w from to := bit_change w from to reset_bit.
Definition reset w i := bit_change1 w i reset_bit.
Definition set_range w from to := bit_change w from to set_bit.
Definition set w i := bit_change1 w i set_bit.
Definition flip_range w from to := bit_change w from to flip_bit.
Definition flip w i := bit_change1 w i flip_bit.

Definition bit_assign_range w from to (value : bool) :=
  bit_change w from to (if value then set_bit else reset_bit).
Definition bit_assign w i (value : bool) :=
  bit_change1 w i (if value then set_bit else reset_bit).

(** [bits_assign].  [new_t_ptr] is an offset into [new_t_ids], and
    [&new_t_ids[0]] is offset 0: an address, through which nothing is
    read or written unless one of the copy loops runs.

    One copy loop,
    [for (i = 0; i < s; ++i, ++new_t_ptr) *new_t_ptr = src[i];]
    each write through the pointer has to fall inside [new_t_ids]. *)
Fixpoint copy_ids (src : index_type) (new_t_ids : index_type) (new_t_ptr : nat)
  : option (index_type * nat) :=
  match src with
  | [] => Some (new_t_ids, new_t_ptr)
  | x :: src' =>
      if decide (new_t_ptr < length new_t_ids)
      then copy_ids src' (<[new_t_ptr := x]> new_t_ids) (S new_t_ptr)
      else None
  end.

Definition bits_assign (w : big_whole) (from to : nat) (values : big_whole)
  : option big_whole :=
  let '(from, to) := if decide (to < from) then (to, from) else (from, to) in
  let t_ids := to_bit_indices w in
  let v_ids := to_bit_indices values in
  let pre_t_ids := filter (λ i, i < from) t_ids in
  let new_v_ids := (λ i, i + from) <$> filter (λ i, i ≤ to - from) v_ids in
  let post_t_ids := filter (λ i, to < i) t_ids in
  let pre_s := length pre_t_ids in
  let new_s := length new_v_ids in
  let post_s := length post_t_ids in
  let new_t_ids := replicate (pre_s + new_s + post_s) 0 in
  let new_t_ptr := 0 in
  '(new_t_ids, new_t_ptr) ← copy_ids pre_t_ids new_t_ids new_t_ptr;
  '(new_t_ids, new_t_ptr) ← copy_ids new_v_ids new_t_ids new_t_ptr;
  '(new_t_ids, new_t_ptr) ← copy_ids post_t_ids new_t_ids new_t_ptr;
  Some (reconfigure w new_t_ids).

(** ** Self-operator mutators and operators *)

(** [x_.reset(any() ? NULL : new va_type(1u, 1))] *)
Definition not_self (w : big_whole) : big_whole :=
  mk_big_whole (if any w then None else Some (replicate 1 1%Z)).

(** [operator !]: the operand is a reference to const; the pair is the
    operand after the call and the value returned. *)
Definition operator_not (w : big_whole) : big_whole * big_whole :=
  let temp := copy w in
  (w, not_self temp).

Definition operator_bool (w : big_whole) : bool := any w.

(** ** [std::numeric_limits<big_whole>]

    Its members are static: constants, and functions that are either
    given a body in the class or only declared ("functions whose
    definitions aren't given here are never defined"). *)

Inductive member_function (A : Type) : Type :=
  | body (value : A)
  | never_defined.

Arguments body {A} value.
Arguments never_defined {A}.

(** The value of a call, where the function has a definition. *)
Definition call {A} (f : member_function A) : option A :=
  match f with
  | body value => Some value
  | never_defined => None
  end.

Inductive float_denorm_style :=
  denorm_indeterminate | denorm_absent | denorm_present.

Inductive float_round_style :=
  | round_indeterminate
  | round_toward_zero
  | round_to_nearest
  | round_toward_infinity
  | round_toward_neg_infinity.

Module numeric_limits.

Definition is_specialized : bool := true.
Definition min : member_function big_whole := body zero.
Definition max : member_function big_whole := never_defined.

Definition digits : Z := 0.
Definition digits10 : Z := 0.
Definition is_signed : bool := false.
Definition is_integer : bool := true.
Definition is_exact : bool := true.
Definition radix : Z := 2.
Definition epsilon : member_function big_whole := never_defined.
Definition round_error : member_function big_whole := never_defined.

Definition min_exponent : Z := 0.
Definition min_exponent10 : Z := 0.
Definition max_exponent : Z := 0.
Definition max_exponent10 : Z := 0.

Definition has_infinity : bool := false.
Definition has_quiet_NaN : bool := false.
Definition has_signaling_NaN : bool := false.
Definition has_denorm : float_denorm_style := denorm_absent.
Definition has_denorm_loss : bool := false.
Definition infinity : member_function big_whole := never_defined.
Definition quiet_NaN : member_function big_whole := never_defined.
Definition signaling_NaN : member_function big_whole := never_defined.
Definition denorm_min : member_function big_whole := never_defined.

Definition is_iec559 : bool := false.
Definition is_bounded : bool := false.
Definition is_modulo : bool := false.

Definition traps : bool := false.
Definition tinyness_before : bool := false.
Definition round_style : float_round_style := round_toward_zero.

End numeric_limits.

(** * Vocabulary of the statements *)

(** Bit [i] of the number that the words spell; words past the end are
    zero. *)
Definition bit_of (v : va_type) (i : nat) : bool :=
  Z.testbit (nth (i / digits) v 0%Z) (Z.of_nat (i mod digits)).

(** Two word sequences that agree word by word once padded with zero
    words. *)
Definition va_equiv (a b : va_type) : Prop :=
  ∀ k, nth k a 0%Z = nth k b 0%Z.

(** What the read operations return on two objects. *)
Definition same_reads (w1 w2 : big_whole) : Prop :=
  length_ w1 = length_ w2
  ∧ count w1 = count w2
  ∧ any w1 = any w2
  ∧ none w1 = none w2
  ∧ (∀ i, test w1 i = test w2 i)
  ∧ to_bit_indices w1 = to_bit_indices w2
  ∧ to_bit_vector w1 = to_bit_vector w2
  ∧ to_uintmax w1 = to_uintmax w2.

(** The effect of [op] with mask [m] on a word, and on one bit [b] that
    the mask selects ([c]) or not. *)
Definition apply_op (op : bit_operation) (m x : Z) : Z :=
  match op with
  | flip_bit => Z.lxor x m
  | set_bit => Z.lor x m
  | reset_bit => Z.land x (wnot m)
  end.

Definition op_bit (op : bit_operation) (c b : bool) : bool :=
  match op with
  | flip_bit => xorb b c
  | set_bit => b || c
  | reset_bit => b && negb c
  end.

Definition word_at (w : big_whole) (k : nat) : Z := nth k (words w) 0%Z.

(** A caller's loop [for i in l: w.bit_change(i, op)]. *)
Fixpoint bit_change_each (w : big_whole) (l : list nat) (op : bit_operation)
  : option big_whole :=
  match l with
  | [] => Some w
  | i :: l' => w' ← bit_change1 w i op; bit_change_each w' l' op
  end.


(** The stored word sequence is empty or ends in a non-zero word. *)
Definition canonical (v : list Z) : Prop :=
  match list.last v with
  | Some x => x ≠ 0%Z
  | None => True
  end.

(** * Properties *)

(** ** Words and their bits *)

#[local] Arguments Nat.div : simpl never.
#[local] Arguments Nat.modulo : simpl never.
#[local] Arguments Z.of_nat : simpl never.
#[local] Arguments Z.pow : simpl never.

Local Open Scope Z_scope.

Lemma digits_eq : Z.of_nat digits = 32.
Proof. reflexivity. Qed.

Lemma to_word_range z : 0 <= to_word z < 2 ^ Z.of_nat digits.
Proof. unfold to_word. apply Z.mod_pos_bound. rewrite digits_eq. lia. Qed.

Lemma word_ok_iff w : word_ok w = true ↔ 0 <= w < 2 ^ Z.of_nat digits.
Proof. unfold word_ok. rewrite andb_true_iff, Z.leb_le, Z.ltb_lt. tauto. Qed.

Lemma to_word_ok z : word_ok (to_word z) = true.
Proof. apply word_ok_iff, to_word_range. Qed.

Lemma to_word_id w : word_ok w = true → to_word w = w.
Proof. intros H%word_ok_iff. unfold to_word. by apply Z.mod_small. Qed.

Lemma testbit_to_word z n :
  Z.testbit (to_word z) n = (n <? Z.of_nat digits) && Z.testbit z n.
Proof.
  unfold to_word. destruct (Z.ltb_spec n (Z.of_nat digits)); simpl.
  - destruct (Z.neg_nonneg_cases n).
    + by rewrite !Z.testbit_neg_r.
    + by rewrite Z.mod_pow2_bits_low.
  - apply Z.mod_pow2_bits_high. lia.
Qed.

Lemma word_ok_testbit_high w n :
  word_ok w = true → Z.of_nat digits <= n → Z.testbit w n = false.
Proof.
  intros Hw Hn. rewrite <- (to_word_id w Hw), testbit_to_word.
  destruct (Z.ltb_spec n (Z.of_nat digits)); [lia | done].
Qed.

(** A word is determined by its [digits] low bits. *)
Lemma word_eq_bits a b :
  word_ok a = true → word_ok b = true →
  (∀ j : nat, (j < digits)%nat → Z.testbit a (Z.of_nat j) = Z.testbit b (Z.of_nat j)) →
  a = b.
Proof.
  intros Ha Hb H. apply Z.bits_inj'. intros n Hn.
  destruct (Z.ltb_spec n (Z.of_nat digits)).
  - rewrite <- (Z2Nat.id n Hn). apply H. lia.
  - by rewrite !word_ok_testbit_high.
Qed.

Lemma word_zero_bits a :
  word_ok a = true →
  (∀ j : nat, (j < digits)%nat → Z.testbit a (Z.of_nat j) = false) → a = 0.
Proof.
  intros Ha H. apply word_eq_bits; [done..|].
  intros j Hj. by rewrite H, Z.bits_0.
Qed.

Lemma testbit_wshl_1 (j : nat) n :
  (j < digits)%nat → Z.testbit (wshl 1 j) n = (n =? Z.of_nat j).
Proof.
  intros Hj. unfold wshl. rewrite testbit_to_word, Z.shiftl_1_l.
  destruct (Z.eqb_spec n (Z.of_nat j)) as [->|Hne].
  - rewrite Z.pow2_bits_true by lia.
    destruct (Z.ltb_spec (Z.of_nat j) (Z.of_nat digits)); [done | lia].
  - rewrite Z.pow2_bits_false by lia. apply andb_false_r.
Qed.

Lemma nonzero_false w : nonzero w = false ↔ w = 0.
Proof. unfold nonzero. rewrite negb_false_iff. apply Z.eqb_eq. Qed.

Lemma nonzero_true w : nonzero w = true ↔ w ≠ 0.
Proof. unfold nonzero. rewrite negb_true_iff. apply Z.eqb_neq. Qed.

(** [w & (1u << j)], read as a truth value, is bit [j] of [w]. *)
Lemma nonzero_land_wshl w (j : nat) :
  (j < digits)%nat → nonzero (Z.land w (wshl 1 j)) = Z.testbit w (Z.of_nat j).
Proof.
  intros Hj. destruct (Z.testbit w (Z.of_nat j)) eqn:Hb.
  - apply nonzero_true. intros H0.
    apply (f_equal (λ z, Z.testbit z (Z.of_nat j))) in H0.
    rewrite Z.land_spec, Hb, testbit_wshl_1, Z.eqb_refl, Z.bits_0 in H0 by done.
    done.
  - apply nonzero_false, Z.bits_inj'. intros n _.
    rewrite Z.land_spec, testbit_wshl_1, Z.bits_0 by done.
    destruct (Z.eqb_spec n (Z.of_nat j)) as [->|]; [by rewrite Hb | apply andb_false_r].
Qed.

Lemma nonzero_wshl_land w (j : nat) :
  (j < digits)%nat → nonzero (Z.land (wshl 1 j) w) = Z.testbit w (Z.of_nat j).
Proof. intros. rewrite Z.land_comm. by apply nonzero_land_wshl. Qed.

Lemma testbit_wnot m (j : nat) :
  (j < digits)%nat → Z.testbit (wnot m) (Z.of_nat j) = negb (Z.testbit m (Z.of_nat j)).
Proof.
  intros Hj. unfold wnot. rewrite testbit_to_word, Z.lnot_spec by lia.
  destruct (Z.ltb_spec (Z.of_nat j) (Z.of_nat digits)); [done | lia].
Qed.

Lemma land_ok a b : word_ok a = true → word_ok (Z.land a b) = true.
Proof.
  intros Ha. apply word_ok_iff. apply word_ok_iff in Ha as Ha'.
  split; [apply Z.land_nonneg; lia|].
  destruct (Z.eq_dec (Z.land a b) 0) as [->|Hne]; [lia|].
  assert (0 <= Z.land a b) by (apply Z.land_nonneg; lia).
  apply Z.log2_lt_pow2; [lia|].
  destruct (Z.le_gt_cases (Z.of_nat digits) (Z.log2 (Z.land a b))) as [Hle|]; [|lia].
  assert (Z.testbit (Z.land a b) (Z.log2 (Z.land a b)) = true) as Hb
    by (apply Z.bit_log2; lia).
  rewrite Z.land_spec, (word_ok_testbit_high a) in Hb by done. done.
Qed.

Lemma lor_ok a b : word_ok a = true → word_ok b = true → word_ok (Z.lor a b) = true.
Proof.
  intros Ha Hb. apply word_ok_iff.
  apply word_ok_iff in Ha as Ha'. apply word_ok_iff in Hb as Hb'.
  assert (0 <= Z.lor a b) by (apply Z.lor_nonneg; lia).
  split; [done|].
  destruct (Z.eq_dec (Z.lor a b) 0) as [->|Hne]; [lia|].
  apply Z.log2_lt_pow2; [lia|].
  destruct (Z.le_gt_cases (Z.of_nat digits) (Z.log2 (Z.lor a b))) as [Hle|]; [|lia].
  assert (Z.testbit (Z.lor a b) (Z.log2 (Z.lor a b)) = true) as Hbit
    by (apply Z.bit_log2; lia).
  rewrite Z.lor_spec, (word_ok_testbit_high a), (word_ok_testbit_high b) in Hbit by done.
  done.
Qed.

Lemma lxor_ok a b : word_ok a = true → word_ok b = true → word_ok (Z.lxor a b) = true.
Proof.
  intros Ha Hb. apply word_ok_iff.
  apply word_ok_iff in Ha as Ha'. apply word_ok_iff in Hb as Hb'.
  assert (0 <= Z.lxor a b) by (apply Z.lxor_nonneg; lia).
  split; [done|].
  destruct (Z.eq_dec (Z.lxor a b) 0) as [->|Hne]; [lia|].
  apply Z.log2_lt_pow2; [lia|].
  destruct (Z.le_gt_cases (Z.of_nat digits) (Z.log2 (Z.lxor a b))) as [Hle|]; [|lia].
  assert (Z.testbit (Z.lxor a b) (Z.log2 (Z.lxor a b)) = true) as Hbit
    by (apply Z.bit_log2; lia).
  rewrite Z.lxor_spec, (word_ok_testbit_high a), (word_ok_testbit_high b) in Hbit by done.
  done.
Qed.

Lemma word_max_ok : word_ok word_max = true.
Proof. reflexivity. Qed.

Lemma testbit_word_max (j : nat) :
  (j < digits)%nat → Z.testbit word_max (Z.of_nat j) = true.
Proof.
  intros Hj. change word_max with (Z.ones (Z.of_nat digits)).
  apply Z.ones_spec_low. lia.
Qed.

Lemma wshl_ok w n : word_ok (wshl w n) = true.
Proof. apply to_word_ok. Qed.

Lemma wnot_ok w : word_ok (wnot w) = true.
Proof. apply to_word_ok. Qed.

Local Close Scope Z_scope.

(** ** Bits of a word sequence *)

Lemma index_split i :
  i = i / digits * digits + i mod digits ∧ i mod digits < digits.
Proof.
  pose proof (Nat.div_mod_eq i digits). 
  pose proof (Nat.mod_upper_bound i digits). unfold digits in *. lia.
Qed.

Lemma index_join k j :
  j < digits → (k * digits + j) / digits = k ∧ (k * digits + j) mod digits = j.
Proof.
  intros Hj. split.
  - rewrite Nat.add_comm, Nat.div_add by done. rewrite Nat.div_small by done. lia.
  - rewrite Nat.add_comm, Nat.Div0.mod_add. by apply Nat.mod_small.
Qed.

Lemma bit_of_join v k j :
  j < digits → bit_of v (k * digits + j) = Z.testbit (nth k v 0%Z) (Z.of_nat j).
Proof. intros Hj. unfold bit_of. by destruct (index_join k j Hj) as [-> ->]. Qed.

Lemma test_bit_of w i : test w i = bit_of (words w) i.
Proof.
  unfold test, bit_of, words. destruct (index_split i) as [_ Hlt].
  destruct (x_ w) as [v|]; simpl.
  - case_decide.
    + by apply nonzero_land_wshl.
    + rewrite nth_overflow by lia. by rewrite Z.bits_0.
  - destruct (i / digits)%nat; by rewrite Z.bits_0.
Qed.

Lemma va_ok_nth v k : va_ok v = true → word_ok (nth k v 0%Z) = true.
Proof.
  unfold va_ok. rewrite forallb_forall. intros H.
  destruct (Nat.lt_ge_cases k (length v)).
  - apply H, nth_In. lia.
  - by rewrite nth_overflow.
Qed.

Lemma va_ok_Forall v : va_ok v = true ↔ Forall (λ w, word_ok w = true) v.
Proof.
  unfold va_ok. induction v as [|x v IH]; simpl.
  - split; [constructor | done].
  - rewrite andb_true_iff, IH. split.
    + intros [??]. by constructor.
    + by inversion 1.
Qed.

Lemma va_ok_app a b : va_ok (a ++ b) = va_ok a && va_ok b.
Proof. apply forallb_app. Qed.

Lemma va_ok_replicate n : va_ok (replicate n 0%Z) = true.
Proof. induction n; simpl; done. Qed.

Lemma big_whole_ok_words w : big_whole_ok w = va_ok (words w).
Proof. unfold big_whole_ok, words. by destruct (x_ w). Qed.

(** ** Representations of one value *)

Lemma va_equiv_sym a b : va_equiv a b → va_equiv b a.
Proof. intros H k. by rewrite H. Qed.

Lemma va_equiv_pad a n : va_equiv a (a ++ replicate n 0%Z).
Proof.
  intros k. destruct (Nat.lt_ge_cases k (length a)).
  - by rewrite app_nth1.
  - rewrite app_nth2, nth_overflow by lia.
    rewrite nth_lookup. destruct (replicate n 0%Z !! (k - length a)) eqn:E; [|done].
    by apply lookup_replicate in E as [-> _].
Qed.

Lemma va_equiv_nil b : va_equiv [] b → b = replicate (length b) 0%Z.
Proof.
  intros H. induction b as [|x b IH]; [done|]. simpl. f_equal.
  - symmetry. apply (H 0).
  - apply IH. intros k. specialize (H (S k)). by destruct k.
Qed.

Lemma va_equiv_cases a : ∀ b,
  va_equiv a b →
  (∃ n, b = a ++ replicate n 0%Z) ∨ (∃ n, a = b ++ replicate n 0%Z).
Proof.
  induction a as [|x a IH]; intros b H.
  - left. exists (length b). by apply va_equiv_nil.
  - destruct b as [|y b].
    + right. exists (length (x :: a)). apply va_equiv_nil. by apply va_equiv_sym.
    + assert (x = y) as <- by apply (H 0).
      destruct (IH b) as [[n ->]|[n ->]].
      * intros k. apply (H (S k)).
      * left. by exists n.
      * right. by exists n.
Qed.

(** With words in range, agreeing on every bit is agreeing on every
    word. *)
Lemma bits_va_equiv a b :
  va_ok a = true → va_ok b = true →
  (∀ i, bit_of a i = bit_of b i) → va_equiv a b.
Proof.
  intros Ha Hb H k. apply word_eq_bits; [by apply va_ok_nth..|].
  intros j Hj. rewrite <- !bit_of_join by done. apply H.
Qed.

Lemma va_equiv_bits a b i : va_equiv a b → bit_of a i = bit_of b i.
Proof. intros H. unfold bit_of. by rewrite H. Qed.

(** ** [wlength], [blength], [length], [any] *)

Lemma wlength_loop_spec v i :
  wlength_loop v i ≤ i
  ∧ (∀ k, wlength_loop v i ≤ k < i → nth k v 0%Z = 0%Z)
  ∧ (∀ o, wlength_loop v i = S o → nth o v 0%Z ≠ 0%Z).
Proof.
  induction i as [|i (IH1 & IH2 & IH3)]; simpl.
  - repeat split; intros; lia.
  - destruct (nonzero (nth i v 0%Z)) eqn:E.
    + repeat split; [lia | intros; lia |].
      intros o [= <-]. by apply nonzero_true.
    + apply nonzero_false in E. repeat split; [lia | | done].
      intros k Hk. destruct (decide (k = i)) as [->|]; [done|].
      apply IH2. lia.
Qed.

(** The subscript [v[o - 1]] of [length] stays inside the array. *)
Lemma wlength_le v : wlength v ≤ length v.
Proof. apply wlength_loop_spec. Qed.

Lemma wlength_above v k : wlength v ≤ k → nth k v 0%Z = 0%Z.
Proof.
  intros Hk. destruct (Nat.lt_ge_cases k (length v)).
  - by apply (wlength_loop_spec v (length v)).
  - by apply nth_overflow.
Qed.

Lemma wlength_top v o : wlength v = S o → nth o v 0%Z ≠ 0%Z.
Proof. apply wlength_loop_spec. Qed.

Lemma blength_loop_spec w i :
  i ≤ digits →
  blength_loop w i ≤ i
  ∧ (∀ j, blength_loop w i ≤ j < i → Z.testbit w (Z.of_nat j) = false)
  ∧ (∀ b, blength_loop w i = S b → Z.testbit w (Z.of_nat b) = true).
Proof.
  induction i as [|i IH]; intros Hi; simpl.
  - repeat split; intros; lia.
  - destruct IH as (IH1 & IH2 & IH3); [lia|].
    rewrite nonzero_land_wshl by lia.
    destruct (Z.testbit w (Z.of_nat i)) eqn:E.
    + repeat split; [lia | intros; lia |]. by intros b [= <-].
    + repeat split; [lia | | done].
      intros j Hj. destruct (decide (j = i)) as [->|]; [done|].
      apply IH2. lia.
Qed.

Lemma blength_le w : blength w ≤ digits.
Proof. by apply blength_loop_spec. Qed.

Lemma blength_above w j :
  word_ok w = true → blength w ≤ j → Z.testbit w (Z.of_nat j) = false.
Proof.
  intros Hw Hj. destruct (Nat.lt_ge_cases j digits).
  - by apply (blength_loop_spec w digits).
  - apply word_ok_testbit_high; [done | lia].
Qed.

Lemma blength_top w b : blength w = S b → Z.testbit w (Z.of_nat b) = true.
Proof. by apply blength_loop_spec. Qed.

Lemma blength_pos w : word_ok w = true → w ≠ 0%Z → 0 < blength w.
Proof.
  intros Hw Hne. destruct (blength w) eqn:E; [|lia].
  destruct Hne. apply word_zero_bits; [done|].
  intros j _. apply blength_above; [done | lia].
Qed.

Lemma fold_left_max_zero l : ∀ x,
  (0 ≤ x)%Z → Forall (λ y, 0 ≤ y)%Z l →
  fold_left Z.max l x = 0%Z ↔ x = 0%Z ∧ Forall (λ y, y = 0%Z) l.
Proof.
  induction l as [|y l IH]; intros x Hx Hl; simpl.
  - split; [by intros ->; split; [|constructor] | by intros [-> _]].
  - inversion_clear Hl as [|?? Hy Hl'].
    rewrite IH by (done || lia). split.
    + intros [H0 Hall]. split; [lia|]. constructor; [lia | done].
    + intros [-> Hall]. inversion_clear Hall. split; [lia | done].
Qed.

Lemma va_max_zero v :
  va_ok v = true → va_max v = 0%Z ↔ ∀ k, nth k v 0%Z = 0%Z.
Proof.
  intros Hv. destruct v as [|x l]; simpl.
  { split; [|done]. intros _ k. by destruct k. }
  apply va_ok_Forall in Hv. inversion_clear Hv as [|?? Hx Hl].
  apply word_ok_iff in Hx.
  rewrite fold_left_max_zero; [|lia|].
  - split.
    + intros [-> Hall] [|k]; [done|].
      rewrite nth_lookup. destruct (l !! k) eqn:E; [|done].
      simpl. eapply Forall_lookup_1 in Hall; done.
    + intros H. split; [apply (H 0)|].
      apply Forall_lookup_2. intros i y Hy.
      specialize (H (S i)). simpl in H. by rewrite nth_lookup, Hy in H.
  - eapply Forall_impl; [|done]. intros y Hy%word_ok_iff. simpl in *. lia.
Qed.

Lemma any_false_iff w :
  big_whole_ok w = true →
  any w = false ↔ ∀ k, nth k (words w) 0%Z = 0%Z.
Proof.
  unfold big_whole_ok, any, words. destruct (x_ w) as [v|]; simpl.
  - intros Hv. case_decide as Hlen.
    + rewrite nonzero_false. by apply va_max_zero.
    + split; [|done]. intros _ k.
      destruct v; [by destruct k | simpl in Hlen; lia].
  - intros _. split; [|done]. intros _ k. by destruct k.
Qed.

Lemma words_zero_bits v : (∀ k, nth k v 0%Z = 0%Z) → ∀ i, bit_of v i = false.
Proof. intros H i. unfold bit_of. by rewrite H, Z.bits_0. Qed.

Lemma length_spec w :
  big_whole_ok w = true →
  (length_ w = 0 ↔ ∀ k, nth k (words w) 0%Z = 0%Z)
  ∧ (∀ i, length_ w ≤ i → bit_of (words w) i = false)
  ∧ (0 < length_ w → bit_of (words w) (length_ w - 1) = true).
Proof.
  unfold big_whole_ok, length_, words. destruct (x_ w) as [v|]; simpl.
  2:{ intros _. split; [|split]; [| |lia].
      - split; [intros _ k; by destruct k | done].
      - intros i _. unfold bit_of. destruct (i / digits); by rewrite Z.bits_0. }
  intros Hv. destruct (wlength v) as [|oo] eqn:Ho.
  - assert (∀ k, nth k v 0%Z = 0%Z) as Hz.
    { intros k. apply wlength_above. lia. }
    split; [done|]. split; [|lia]. intros i _. by apply words_zero_bits.
  - pose proof (wlength_top v oo Ho) as Htop.
    pose proof (va_ok_nth v oo Hv) as Hok.
    pose proof (blength_pos _ Hok Htop) as Hpos.
    pose proof (blength_le (nth oo v 0%Z)) as Hle.
    split; [|split].
    + split; [lia|]. intros Hz. by destruct Htop.
    + intros i Hi. unfold bit_of. destruct (index_split i) as [Hi1 Hi2].
      destruct (decide (i / digits = oo)) as [Heq|Hne].
      * rewrite Heq. apply blength_above; [done|]. rewrite Heq in Hi1. lia.
      * rewrite wlength_above; [apply Z.bits_0|].
        rewrite Ho. unfold digits in *. nia.
    + intros _. destruct (blength (nth oo v 0%Z)) as [|b] eqn:Hb; [lia|].
      replace (S b + oo * digits - 1) with (oo * digits + b) by lia.
      rewrite bit_of_join by lia. by apply blength_top.
Qed.

(** ** Every read depends on the value only *)

Lemma wlength_equiv a b : va_equiv a b → wlength a = wlength b.
Proof.
  intros H.
  assert (∀ a b, va_equiv a b → wlength a ≤ wlength b) as Hle.
  { clear. intros a b H. destruct (wlength a) as [|o] eqn:E; [lia|].
    apply Nat.lt_nge. intros Hlt. apply (wlength_top a o E).
    rewrite H. apply wlength_above. lia. }
  apply Nat.le_antisymm; apply Hle; [done | by apply va_equiv_sym].
Qed.

Lemma length_words w :
  length_ w =
  match wlength (words w) with
  | 0 => 0
  | S oo => blength (nth oo (words w) 0%Z) + oo * digits
  end.
Proof. unfold length_, words. by destruct (x_ w). Qed.

Lemma length_equiv w1 w2 :
  va_equiv (words w1) (words w2) → length_ w1 = length_ w2.
Proof.
  intros H. rewrite !length_words, (wlength_equiv _ _ H).
  destruct (wlength (words w2)); [done|]. by rewrite H.
Qed.

Lemma count_set_bits_loop_ok n : ∀ w c,
  word_ok c = true → word_ok (count_set_bits_loop w c n) = true.
Proof.
  induction n as [|n IH]; intros w c Hc; simpl; [done|].
  destruct (nonzero w); [|done]. apply IH, to_word_ok.
Qed.

Lemma count_set_bits_for_word_ok w : word_ok (count_set_bits_for_word w) = true.
Proof. by apply count_set_bits_loop_ok. Qed.

Lemma fold_left_wadd_ok l : ∀ x, word_ok x = true → word_ok (fold_left wadd l x) = true.
Proof.
  induction l as [|y l IH]; intros x Hx; simpl; [done|]. apply IH, to_word_ok.
Qed.

Lemma va_sum_fold l :
  Forall (λ x, word_ok x = true) l → va_sum l = fold_left wadd l 0%Z.
Proof.
  destruct l as [|x l]; simpl; [done|]. inversion_clear 1 as [|?? Hx _].
  replace (wadd 0 x) with x; [done|].
  unfold wadd. change (0 + x)%Z with x. by rewrite to_word_id.
Qed.

(** [count] as one wrapped sum over the words, with or without a
    buffer. *)
Lemma count_words w :
  count w = Z.to_nat (fold_left wadd (count_set_bits_for_word <$> words w) 0%Z).
Proof.
  unfold count, words. destruct (x_ w) as [v|]; simpl; [|done].
  case_decide as Hlen.
  - rewrite va_sum_fold; [done|].
    apply Forall_fmap, Forall_forall. intros x _. apply count_set_bits_for_word_ok.
  - destruct v; [done | simpl in Hlen; lia].
Qed.

Lemma fold_left_wadd_zeros n x :
  word_ok x = true → fold_left wadd (replicate n 0%Z) x = x.
Proof.
  intros Hx. induction n as [|n IH]; simpl; [done|].
  replace (wadd x 0) with x; [done|].
  unfold wadd. by rewrite Z.add_0_r, to_word_id.
Qed.

Lemma count_pad a n :
  fold_left wadd (count_set_bits_for_word <$> (a ++ replicate n 0%Z)) 0%Z
  = fold_left wadd (count_set_bits_for_word <$> a) 0%Z.
Proof.
  rewrite fmap_app, fold_left_app, fmap_replicate.
  change (count_set_bits_for_word 0) with 0%Z.
  by apply fold_left_wadd_zeros, fold_left_wadd_ok.
Qed.

Lemma word_bit_indices_zero n : ∀ j jj, word_bit_indices 0 j jj n = [].
Proof.
  induction n as [|n IH]; intros j jj; simpl; [done|].
  by rewrite Z.land_0_r, IH.
Qed.

Lemma to_bit_indices_loop_pad a n : ∀ ii,
  to_bit_indices_loop (a ++ replicate n 0%Z) ii = to_bit_indices_loop a ii.
Proof.
  induction a as [|x a IH]; intros ii; cbn [app to_bit_indices_loop].
  - revert ii. induction n as [|n IHn]; intros ii;
      cbn [replicate to_bit_indices_loop]; [done|].
    by rewrite word_bit_indices_zero, IHn.
  - by rewrite IH.
Qed.

Lemma to_bit_indices_words w : to_bit_indices w = to_bit_indices_loop (words w) 0.
Proof. unfold to_bit_indices, words. by destruct (x_ w). Qed.

Lemma va_equiv_read {A} (f : va_type → A) :
  (∀ a n, f (a ++ replicate n 0%Z) = f a) →
  ∀ a b, va_equiv a b → f a = f b.
Proof.
  intros Hpad a b [[n ->]|[n ->]]%va_equiv_cases; by rewrite Hpad.
Qed.

Lemma count_equiv w1 w2 : va_equiv (words w1) (words w2) → count w1 = count w2.
Proof.
  intros H. rewrite !count_words. f_equal.
  revert H. apply (va_equiv_read (λ v, fold_left wadd (count_set_bits_for_word <$> v) 0%Z)).
  apply count_pad.
Qed.

Lemma to_bit_indices_equiv w1 w2 :
  va_equiv (words w1) (words w2) → to_bit_indices w1 = to_bit_indices w2.
Proof.
  intros H. rewrite !to_bit_indices_words.
  revert H. apply (va_equiv_read (λ v, to_bit_indices_loop v 0)).
  intros a n. apply to_bit_indices_loop_pad.
Qed.

Lemma to_bit_vector_equiv w1 w2 :
  va_equiv (words w1) (words w2) → to_bit_vector w1 = to_bit_vector w2.
Proof. intros H. unfold to_bit_vector. by rewrite (to_bit_indices_equiv _ _ H). Qed.

Lemma test_equiv w1 w2 i : va_equiv (words w1) (words w2) → test w1 i = test w2 i.
Proof. intros H. rewrite !test_bit_of. by apply va_equiv_bits. Qed.

Lemma any_equiv w1 w2 :
  big_whole_ok w1 = true → big_whole_ok w2 = true →
  va_equiv (words w1) (words w2) → any w1 = any w2.
Proof.
  intros H1 H2 H.
  destruct (any w1) eqn:E1, (any w2) eqn:E2; [done| | |done].
  - pose proof (proj1 (any_false_iff w2 H2) E2) as Hz.
    assert (any w1 = false) by (apply any_false_iff; [done|]; intros k; by rewrite H).
    congruence.
  - pose proof (proj1 (any_false_iff w1 H1) E1) as Hz.
    assert (any w2 = false) by (apply any_false_iff; [done|]; intros k; by rewrite <- H).
    congruence.
Qed.

(** ** [to_uintmax] *)

Lemma uintmax_digits_eq : Z.of_nat uintmax_digits = 64%Z.
Proof. reflexivity. Qed.

Lemma testbit_to_uintmax_t z n :
  Z.testbit (to_uintmax_t z) n = (n <? Z.of_nat uintmax_digits)%Z && Z.testbit z n.
Proof.
  unfold to_uintmax_t. destruct (Z.ltb_spec n (Z.of_nat uintmax_digits)); simpl.
  - destruct (Z.neg_nonneg_cases n).
    + by rewrite !Z.testbit_neg_r.
    + by rewrite Z.mod_pow2_bits_low.
  - apply Z.mod_pow2_bits_high. lia.
Qed.

Lemma bits_above_lt z k :
  (0 ≤ z)%Z → (0 ≤ k)%Z → (∀ n, (k ≤ n)%Z → Z.testbit z n = false) → (z < 2 ^ k)%Z.
Proof.
  intros Hz Hk H. destruct (Z.eq_dec z 0%Z) as [->|Hne].
  { apply Z.pow_pos_nonneg; lia. }
  apply Z.log2_lt_pow2; [lia|].
  destruct (Z.le_gt_cases k (Z.log2 z)) as [Hle|]; [|lia].
  specialize (H _ Hle). rewrite Z.bit_log2 in H by lia. done.
Qed.

Lemma to_uintmax_loop_bits v :
  va_ok v = true →
  ∀ i temp n, n < uintmax_digits →
    Z.testbit (to_uintmax_loop v i temp) (Z.of_nat n) =
    if decide (n < i * digits) then bit_of v n
    else Z.testbit temp (Z.of_nat (n - i * digits)).
Proof.
  intros Hv. induction i as [|i IH]; intros temp n Hn; cbn [to_uintmax_loop].
  { case_decide; [lia|]. do 2 f_equal. lia. }
  rewrite IH by done. destruct (decide (n < i * digits)) as [H1|H1].
  { by rewrite decide_True by lia. }
  rewrite Z.lor_spec, !testbit_to_uintmax_t.
  assert ((Z.of_nat (n - i * digits) <? Z.of_nat uintmax_digits)%Z = true) as ->
    by (apply Z.ltb_lt; lia).
  cbn [andb]. rewrite Z.shiftl_spec by lia.
  destruct (decide (n < S i * digits)) as [Hlt|Hge].
  - rewrite Z.testbit_neg_r by lia. cbn [orb].
    replace n with (i * digits + (n - i * digits)) at 2 by lia.
    rewrite bit_of_join by lia. done.
  - rewrite (word_ok_testbit_high (nth i v 0%Z)); [|by apply va_ok_nth | lia].
    rewrite orb_false_r. f_equal. lia.
Qed.

Lemma to_uintmax_loop_high v i : ∀ temp,
  (∀ n, (Z.of_nat uintmax_digits ≤ n)%Z → Z.testbit temp n = false) →
  ∀ n, (Z.of_nat uintmax_digits ≤ n)%Z →
    Z.testbit (to_uintmax_loop v i temp) n = false.
Proof.
  induction i as [|i IH]; intros temp Ht n Hn; cbn [to_uintmax_loop]; [by apply Ht|].
  apply IH; [|done]. intros m Hm.
  rewrite Z.lor_spec, !testbit_to_uintmax_t.
  destruct (Z.ltb_spec m (Z.of_nat uintmax_digits)); [lia | done].
Qed.

Lemma to_uintmax_loop_nonneg v i : ∀ temp,
  (0 ≤ temp)%Z → (0 ≤ to_uintmax_loop v i temp)%Z.
Proof.
  induction i as [|i IH]; intros temp Ht; cbn [to_uintmax_loop]; [done|].
  apply IH, Z.lor_nonneg. unfold to_uintmax_t.
  split; apply Z.mod_pos_bound; rewrite uintmax_digits_eq; lia.
Qed.

Lemma to_uintmax_words w :
  to_uintmax w = to_uintmax_loop (words w) (length (words w)) 0%Z.
Proof. unfold to_uintmax, words. by destruct (x_ w). Qed.

Lemma to_uintmax_range w : (0 ≤ to_uintmax w < 2 ^ Z.of_nat uintmax_digits)%Z.
Proof.
  rewrite to_uintmax_words. split.
  - by apply to_uintmax_loop_nonneg.
  - apply bits_above_lt; [by apply to_uintmax_loop_nonneg | lia |].
    apply to_uintmax_loop_high. intros. apply Z.bits_0.
Qed.

Lemma to_uintmax_bits w n :
  big_whole_ok w = true → n < uintmax_digits →
  Z.testbit (to_uintmax w) (Z.of_nat n) = bit_of (words w) n.
Proof.
  rewrite big_whole_ok_words, to_uintmax_words. intros Hw Hn.
  rewrite to_uintmax_loop_bits by done. case_decide as Hlt; [done|].
  rewrite Z.bits_0. unfold bit_of. rewrite nth_overflow; [by rewrite Z.bits_0|].
  destruct (index_split n). nia.
Qed.

Lemma to_uintmax_equiv w1 w2 :
  big_whole_ok w1 = true → big_whole_ok w2 = true →
  (∀ i, bit_of (words w1) i = bit_of (words w2) i) →
  to_uintmax w1 = to_uintmax w2.
Proof.
  intros H1 H2 H. apply Z.bits_inj'. intros n Hn.
  destruct (Z.ltb_spec n (Z.of_nat uintmax_digits)).
  - rewrite <- (Z2Nat.id n Hn). rewrite !to_uintmax_bits by (done || lia). apply H.
  - rewrite !to_uintmax_words, !to_uintmax_loop_high; try done;
      intros; apply Z.bits_0.
Qed.

(** ** Observations *)

Lemma va_equiv_same_reads w1 w2 :
  big_whole_ok w1 = true → big_whole_ok w2 = true →
  va_equiv (words w1) (words w2) → same_reads w1 w2.
Proof.
  intros H1 H2 H. unfold same_reads, none.
  rewrite (any_equiv w1 w2) by done.
  split_and!; try done.
  - by apply length_equiv.
  - by apply count_equiv.
  - intros i. by apply test_equiv.
  - by apply to_bit_indices_equiv.
  - by apply to_bit_vector_equiv.
  - apply to_uintmax_equiv; [done..|]. intros i. by apply va_equiv_bits.
Qed.

(** Objects in range that agree under [test] at every index agree under
    every read. *)
Lemma test_same_reads w1 w2 :
  big_whole_ok w1 = true → big_whole_ok w2 = true →
  (∀ i, test w1 i = test w2 i) → same_reads w1 w2.
Proof.
  intros H1 H2 H. apply va_equiv_same_reads; [done..|].
  apply bits_va_equiv; [by rewrite <- big_whole_ok_words..|].
  intros i. rewrite <- !test_bit_of. apply H.
Qed.

(** ** [bit_change]: what one step does to the words *)

Lemma testbit_apply_op op m x j :
  j < digits →
  Z.testbit (apply_op op m x) (Z.of_nat j)
  = op_bit op (Z.testbit m (Z.of_nat j)) (Z.testbit x (Z.of_nat j)).
Proof.
  intros Hj. destruct op; simpl.
  - by rewrite Z.land_spec, testbit_wnot.
  - by rewrite Z.lor_spec.
  - by rewrite Z.lxor_spec.
Qed.

Lemma apply_op_ok op m x :
  word_ok m = true → word_ok x = true → word_ok (apply_op op m x) = true.
Proof.
  intros Hm Hx. destruct op; simpl.
  - by apply land_ok.
  - by apply lor_ok.
  - by apply lxor_ok.
Qed.

Lemma op_bit_false op b : op_bit op false b = b.
Proof. destruct op, b; done. Qed.

Lemma word_at_ok w k : big_whole_ok w = true → word_ok (word_at w k) = true.
Proof. rewrite big_whole_ok_words. apply va_ok_nth. Qed.

Lemma word_at_overflow w k : size_of w ≤ k → word_at w k = 0%Z.
Proof.
  unfold size_of, word_at, words. destruct (x_ w); simpl.
  - apply nth_overflow.
  - by destruct k.
Qed.

Lemma words_ok_pointwise w :
  (∀ k, word_ok (word_at w k) = true) → big_whole_ok w = true.
Proof.
  rewrite big_whole_ok_words. unfold word_at. intros H.
  apply va_ok_Forall, Forall_lookup_2. intros k x Hx.
  specialize (H k). by rewrite nth_lookup, Hx in H.
Qed.

Lemma test_word_at w n :
  test w n = Z.testbit (word_at w (n / digits)) (Z.of_nat (n mod digits)).
Proof. apply test_bit_of. Qed.

Lemma nth_alter (f : Z → Z) i (v : va_type) k :
  i < length v →
  nth k (alter f i v) 0%Z = if decide (k = i) then f (nth k v 0%Z) else nth k v 0%Z.
Proof.
  intros Hi. rewrite !nth_lookup. case_decide as Hk.
  - subst k. rewrite list_lookup_alter_eq.
    destruct (lookup_lt_is_Some_2 v i Hi) as [x ->]. done.
  - by rewrite list_lookup_alter_ne.
Qed.

Lemma nth_slice_assign (f : Z → Z) (v : va_type) start len k :
  start + len ≤ length v →
  nth k (slice_assign v start (f <$> take len (drop start v))) 0%Z
  = if decide (start ≤ k < start + len) then f (nth k v 0%Z) else nth k v 0%Z.
Proof.
  intros Hlen. unfold slice_assign.
  assert (length (f <$> take len (drop start v)) = len) as Hl
    by (rewrite length_fmap, length_take, length_drop; lia).
  rewrite Hl, !nth_lookup.
  destruct (decide (k < start)) as [H1|H1].
  { rewrite lookup_app_l by (rewrite length_take; lia).
    rewrite lookup_take_lt by done. case_decide; [lia | done]. }
  rewrite lookup_app_r by (rewrite length_take; lia).
  rewrite length_take, Nat.min_l by lia.
  destruct (decide (k < start + len)) as [H2|H2].
  - rewrite lookup_app_l by lia.
    rewrite list_lookup_fmap, lookup_take_lt, lookup_drop by lia.
    replace (start + (k - start)) with k by lia.
    rewrite decide_True by lia.
    destruct (lookup_lt_is_Some_2 v k) as [x ->]; [lia | done].
  - rewrite lookup_app_r by lia. rewrite Hl, lookup_drop.
    replace (start + len + (k - start - len)) with k by lia.
    case_decide; [lia | done].
Qed.

Lemma grow_spec w n :
  size_of w ≤ n →
  size_of (grow w n) = n ∧ ∀ k, word_at (grow w n) k = word_at w k.
Proof.
  unfold size_of, grow, word_at, words, slice_assign.
  destruct (x_ w) as [v|]; simpl; intros Hn.
  - case_decide as Hv; simpl.
    + rewrite drop_replicate. split.
      * rewrite length_app, length_replicate. lia.
      * intros k. symmetry. apply va_equiv_pad.
    + destruct v; [|simpl in Hv; lia]. split; [by rewrite length_replicate|].
      intros k. symmetry. apply (va_equiv_pad [] n).
  - split; [by rewrite length_replicate|].
    intros k. symmetry. apply (va_equiv_pad [] n).
Qed.

(** One [switch] on a word: it never leaves the array, keeps the size,
    and changes word [i] only.  Set and flip need the word to exist;
    reset of a word past the end finds it zero and leaves it so. *)
Lemma change_word_spec op i m w :
  (is_reset op = false → i < size_of w) →
  ∃ w', change_word op i m (size_of w) w = Some w'
    ∧ size_of w' = size_of w
    ∧ ∀ k, word_at w' k =
           if decide (k = i) then apply_op op m (word_at w k) else word_at w k.
Proof.
  intros Hi.
  assert (i < size_of w →
    ∀ f, ∃ w', word_update f i w = Some w'
      ∧ size_of w' = size_of w
      ∧ ∀ k, word_at w' k = if decide (k = i) then f (word_at w k) else word_at w k)
    as Hupd.
  { unfold word_update, size_of, word_at, words.
    destruct (x_ w) as [v|]; simpl; [|lia]. intros Hlt f.
    rewrite decide_True by done. eexists. split; [done|]. simpl.
    split; [apply length_alter|]. intros k. by apply nth_alter. }
  destruct op; simpl.
  - case_decide as Hlt; [by apply Hupd|].
    exists w. split_and!; [done..|]. intros k. case_decide as Hk; [|done].
    subst k. rewrite word_at_overflow by lia. done.
  - apply (Hupd (Hi eq_refl) (λ x, Z.lor x m)).
  - apply (Hupd (Hi eq_refl) (λ x, Z.lxor x m)).
Qed.

Lemma lor_word_max x : word_ok x = true → Z.lor x word_max = word_max.
Proof.
  intros Hx. apply word_eq_bits; [by apply lor_ok | done |].
  intros j Hj. by rewrite Z.lor_spec, testbit_word_max, orb_true_r.
Qed.

(** The [switch] on the whole words in between. *)
Lemma change_slice_spec op start len w :
  big_whole_ok w = true → 0 < len → start + len ≤ size_of w →
  ∃ w', change_slice op start len w = Some w'
    ∧ size_of w' = size_of w
    ∧ ∀ k, word_at w' k =
           if decide (start ≤ k < start + len)
           then apply_op op word_max (word_at w k) else word_at w k.
Proof.
  intros Hok Hpos Hlen.
  assert (∀ f, ∃ w', slice_update f start len w = Some w'
      ∧ size_of w' = size_of w
      ∧ ∀ k, word_at w' k =
             if decide (start ≤ k < start + len) then f (word_at w k) else word_at w k)
    as Hupd.
  { revert Hlen. unfold slice_update, size_of, word_at, words.
    destruct (x_ w) as [v|]; simpl; [|lia]. intros Hlen f.
    rewrite decide_True by done. eexists. split; [done|]. simpl. split.
    - unfold slice_assign.
      rewrite !length_app, length_fmap, !length_take, !length_drop. lia.
    - intros k. by apply nth_slice_assign. }
  destruct op; simpl.
  - destruct (Hupd (λ _, word_min)) as (w' & -> & Hs & Hw). exists w'.
    split_and!; [done..|]. intros k. rewrite Hw. case_decide; [|done].
    change (wnot word_max) with 0%Z. by rewrite Z.land_0_r.
  - destruct (Hupd (λ _, word_max)) as (w' & -> & Hs & Hw). exists w'.
    split_and!; [done..|]. intros k. rewrite Hw. case_decide; [|done].
    by rewrite lor_word_max by by apply word_at_ok.
  - apply (Hupd (λ x, Z.lxor x word_max)).
Qed.

(** ** [bit_change]: the masks *)

Lemma wsub_wshl_ones (j : nat) : j < digits → wsub (wshl 1 j) 1 = Z.ones (Z.of_nat j).
Proof.
  intros Hj. unfold wsub, wshl. rewrite Z.shiftl_1_l.
  assert (0 < 2 ^ Z.of_nat j ≤ 2 ^ Z.of_nat (digits - 1))%Z as Hp.
  { split; [apply Z.pow_pos_nonneg; lia|]. apply Z.pow_le_mono_r; lia. }
  change (2 ^ Z.of_nat (digits - 1))%Z with 2147483648%Z in Hp.
  rewrite (to_word_id (2 ^ Z.of_nat j)).
  2:{ apply word_ok_iff. change (2 ^ Z.of_nat digits)%Z with 4294967296%Z. lia. }
  rewrite Z.ones_equiv, <- Z.sub_1_r. apply to_word_id, word_ok_iff.
  change (2 ^ Z.of_nat digits)%Z with 4294967296%Z. lia.
Qed.

Lemma testbit_ones_nat (a j : nat) :
  Z.testbit (Z.ones (Z.of_nat a)) (Z.of_nat j) = bool_decide (j < a).
Proof.
  case_bool_decide.
  - apply Z.ones_spec_low. lia.
  - apply Z.ones_spec_high. lia.
Qed.

(** [fm = ~((1u << fj) - 1u)]: the bits at or above [fj]. *)
Lemma testbit_fm (fj j : nat) :
  fj < digits → j < digits →
  Z.testbit (wnot (wsub (wshl 1 fj) 1)) (Z.of_nat j) = bool_decide (fj ≤ j).
Proof.
  intros Hf Hj. rewrite testbit_wnot, wsub_wshl_ones, testbit_ones_nat by done.
  repeat case_bool_decide; (done || lia).
Qed.

(** [tm = (1u << tj) | ((1u << tj) - 1u)]: the bits at or below [tj]. *)
Lemma testbit_tm (tj j : nat) :
  tj < digits → j < digits →
  Z.testbit (Z.lor (wshl 1 tj) (wsub (wshl 1 tj) 1)) (Z.of_nat j) = bool_decide (j ≤ tj).
Proof.
  intros Ht Hj.
  rewrite Z.lor_spec, testbit_wshl_1, wsub_wshl_ones, testbit_ones_nat by done.
  destruct (Z.eqb_spec (Z.of_nat j) (Z.of_nat tj)); repeat case_bool_decide; (done || lia).
Qed.

Lemma testbit_wshl_1_nat (ij j : nat) :
  ij < digits → Z.testbit (wshl 1 ij) (Z.of_nat j) = bool_decide (j = ij).
Proof.
  intros Hi. rewrite testbit_wshl_1 by done.
  destruct (Z.eqb_spec (Z.of_nat j) (Z.of_nat ij)); case_bool_decide; (done || lia).
Qed.

Lemma fm_ok fj : word_ok (wnot (wsub (wshl 1 fj) 1)) = true.
Proof. apply wnot_ok. Qed.

Lemma tm_ok tj : word_ok (Z.lor (wshl 1 tj) (wsub (wshl 1 tj) 1)) = true.
Proof. apply lor_ok; apply to_word_ok. Qed.

(** ** [bit_change]: growth *)

Lemma grow_if w ti op :
  let grown := bool_decide (size_of w ≤ ti) && negb (is_reset op) in
  let w1 := if grown then grow w (ti + 1) else w in
  (if grown then size_of w1 else size_of w) = size_of w1
  ∧ (∀ k, word_at w1 k = word_at w k)
  ∧ (is_reset op = false → ti < size_of w1).
Proof.
  intros grown w1. subst grown w1.
  case_bool_decide as Hs; destruct (is_reset op) eqn:Hop; simpl;
    try (split_and!; [done | done | intros; (done || lia)]).
  destruct (grow_spec w (ti + 1)) as [Hsz Hw]; [lia|].
  split_and!; [done..|]. intros _. lia.
Qed.

(** ** [bit_change(i, op)] *)

Lemma bit_change1_spec w i op :
  big_whole_ok w = true →
  ∃ w', bit_change1 w i op = Some w'
    ∧ big_whole_ok w' = true
    ∧ ∀ n, test w' n = op_bit op (bool_decide (n = i)) (test w n).
Proof.
  intros Hok. unfold bit_change1.
  destruct (grow_if w (i / digits) op) as (Hsz & Hw1 & Hlt).
  set (w1 := if bool_decide (size_of w ≤ i / digits) && negb (is_reset op)
             then grow w (i / digits + 1) else w) in *.
  cbv zeta. rewrite Hsz.
  destruct (change_word_spec op (i / digits) (wshl 1 (i mod digits)) w1 Hlt)
    as (w' & -> & _ & Hw').
  destruct (index_split i) as [Hi1 Hi2].
  exists w'. split; [done|]. split.
  - apply words_ok_pointwise. intros k. rewrite Hw'.
    assert (word_ok (word_at w1 k) = true) by (rewrite Hw1; by apply word_at_ok).
    destruct (decide (k = i / digits)); [|done].
    apply apply_op_ok; [apply wshl_ok | done].
  - intros n. rewrite !test_word_at, Hw', <- Hw1.
    destruct (index_split n) as [Hn1 Hn2].
    destruct (decide (n / digits = i / digits)) as [Hk|Hk].
    + rewrite testbit_apply_op, testbit_wshl_1_nat by done.
      f_equal. apply bool_decide_ext. unfold digits in *. lia.
    + rewrite bool_decide_eq_false_2; [by rewrite op_bit_false|].
      intros ->. done.
Qed.

(** ** [bit_change(from, to, op)] *)

Lemma bit_change_swap w a b op : bit_change w a b op = bit_change w b a op.
Proof.
  unfold bit_change. destruct (decide (b < a)), (decide (a < b)); try done; try lia.
  by replace b with a by lia.
Qed.

Lemma bit_change_sorted w lo hi op :
  lo ≤ hi → big_whole_ok w = true →
  ∃ w', bit_change w lo hi op = Some w'
    ∧ big_whole_ok w' = true
    ∧ ∀ n, test w' n = op_bit op (bool_decide (lo ≤ n ≤ hi)) (test w n).
Proof.
  intros Hle Hok. unfold bit_change. rewrite decide_False by lia. cbv zeta.
  destruct (grow_if w (hi / digits) op) as (Hsz & Hw1 & Hlt).
  set (w1 := if bool_decide (size_of w ≤ hi / digits) && negb (is_reset op)
             then grow w (hi / digits + 1) else w) in *.
  rewrite Hsz.
  destruct (index_split lo) as [Hlo1 Hlo2], (index_split hi) as [Hhi1 Hhi2].
  set (fi := lo / digits) in *. set (fj := lo mod digits) in *.
  set (ti := hi / digits) in *. set (tj := hi mod digits) in *.
  set (fm := wnot (wsub (wshl 1 fj) 1)).
  set (tm := Z.lor (wshl 1 tj) (wsub (wshl 1 tj) 1)).
  assert (big_whole_ok w1 = true) as Hok1.
  { apply words_ok_pointwise. intros k. rewrite Hw1. by apply word_at_ok. }
  assert (∀ n, test w n = Z.testbit (word_at w1 (n / digits)) (Z.of_nat (n mod digits)))
    as Htest by (intros n; by rewrite test_word_at, Hw1).
  destruct (decide (fi = ti)) as [Heq|Hne].
  - (* one word *)
    destruct (change_word_spec op fi (Z.land fm tm) w1) as (w' & -> & _ & Hw').
    { rewrite Heq. done. }
    exists w'. split; [done|]. split.
    + apply words_ok_pointwise. intros k. rewrite Hw'.
      pose proof (word_at_ok w1 k Hok1).
      destruct (decide (k = fi)); [|done].
      apply apply_op_ok; [|done]. apply land_ok, fm_ok.
    + intros n. rewrite test_word_at, Hw', Htest.
      destruct (index_split n) as [Hn1 Hn2].
      destruct (decide (n / digits = fi)) as [Hk|Hk].
      * rewrite testbit_apply_op, Z.land_spec by done.
        unfold fm, tm. rewrite testbit_fm, testbit_tm by done.
        f_equal. unfold digits in *.
        repeat case_bool_decide; simpl; (done || lia).
      * rewrite bool_decide_eq_false_2; [by rewrite op_bit_false|].
        unfold digits in *. nia.
  - (* lowest word, whole words in between, highest word *)
    assert (fi < ti) as Hfi by (unfold digits in *; nia).
    destruct (change_word_spec op fi fm w1) as (w2 & -> & Hs2 & Hw2).
    { intros Hop. specialize (Hlt Hop). lia. }
    cbn [mbind option_bind].
    assert (big_whole_ok w2 = true) as Hok2.
    { apply words_ok_pointwise. intros k. rewrite Hw2.
      pose proof (word_at_ok w1 k Hok1).
      destruct (decide (k = fi)); [|done]. apply apply_op_ok; [apply fm_ok | done]. }
    set (stop := size_of w1 `min` ti).
    assert (∃ w3,
      (if decide (fi + 1 < stop)
       then change_slice op (fi + 1) (stop - (fi + 1)) w2 else Some w2) = Some w3
      ∧ size_of w3 = size_of w1
      ∧ ∀ k, word_at w3 k =
             if decide (fi + 1 ≤ k < stop)
             then apply_op op word_max (word_at w2 k) else word_at w2 k)
      as (w3 & -> & Hs3 & Hw3).
    { destruct (decide (fi + 1 < stop)) as [Hmid|Hmid].
      - destruct (change_slice_spec op (fi + 1) (stop - (fi + 1)) w2)
          as (w3 & -> & Hs3 & Hw3); [done | lia | lia |].
        exists w3. split_and!; [done | congruence |]. intros k. rewrite Hw3.
        by replace (fi + 1 + (stop - (fi + 1))) with stop by lia.
      - exists w2. split_and!; [done..|]. intros k.
        rewrite decide_False by lia. done. }
    cbn [mbind option_bind]. rewrite <- Hs3.
    destruct (change_word_spec op ti tm w3) as (w4 & -> & Hs4 & Hw4).
    { intros Hop. specialize (Hlt Hop). lia. }
    assert (∀ k, word_ok (word_at w3 k) = true) as Hok3.
    { intros k. rewrite Hw3. pose proof (word_at_ok w2 k Hok2).
      destruct (decide (fi + 1 ≤ k < stop)); [|done].
      by apply apply_op_ok. }
    exists w4. split; [done|]. split.
    + apply words_ok_pointwise. intros k. rewrite Hw4.
      destruct (decide (k = ti)); [|done]. apply apply_op_ok; [apply tm_ok | done].
    + intros n. rewrite test_word_at, Hw4, Hw3, Hw2, Htest.
      destruct (index_split n) as [Hn1 Hn2].
      set (k := n / digits) in *. set (j := n mod digits) in *.
      destruct (decide (k = ti)) as [Hk|Hk].
      { rewrite decide_False by lia. rewrite decide_False by lia.
        rewrite testbit_apply_op by done. unfold tm. rewrite testbit_tm by done.
        f_equal. unfold digits in *. repeat case_bool_decide; (done || lia). }
      destruct (decide (fi + 1 ≤ k < stop)) as [Hmid|Hmid].
      { rewrite decide_False by lia.
        rewrite testbit_apply_op, testbit_word_max by done.
        f_equal. rewrite bool_decide_eq_true_2; [done|]. unfold digits in *. nia. }
      destruct (decide (k = fi)) as [Hk'|Hk'].
      { rewrite testbit_apply_op by done. unfold fm. rewrite testbit_fm by done.
        f_equal. unfold digits in *. repeat case_bool_decide; (done || nia). }
      destruct (decide (fi < k < ti)) as [Hbetween|Hout].
      * (* a word past the end of the array, which only reset meets *)
        assert (size_of w1 ≤ k) as Hpast by (unfold stop in Hmid; lia).
        rewrite word_at_overflow, Z.bits_0 by done.
        destruct op; [reflexivity | |];
          (assert (ti < size_of w1) by (by apply Hlt); lia).
      * rewrite bool_decide_eq_false_2; [by rewrite op_bit_false|].
        unfold digits in *. nia.
Qed.

Lemma bit_change_spec w from to op :
  big_whole_ok w = true →
  ∃ w', bit_change w from to op = Some w'
    ∧ big_whole_ok w' = true
    ∧ ∀ n, test w' n =
           op_bit op (bool_decide (from `min` to ≤ n ≤ from `max` to)) (test w n).
Proof.
  intros Hok. destruct (decide (from ≤ to)) as [Hle|Hgt].
  - rewrite Nat.min_l, Nat.max_r by lia. by apply bit_change_sorted.
  - rewrite Nat.min_r, Nat.max_l, bit_change_swap by lia.
    apply bit_change_sorted; [lia | done].
Qed.

(** ** The single-bit form applied to a list of indices *)

Lemma bit_change_each_spec l op : ∀ w,
  big_whole_ok w = true →
  ∃ w', bit_change_each w l op = Some w'
    ∧ big_whole_ok w' = true
    ∧ ∀ n, test w' n =
           fold_left (λ b i, op_bit op (bool_decide (n = i)) b) l (test w n).
Proof.
  induction l as [|i l IH]; intros w Hok; cbn [bit_change_each fold_left].
  - by exists w.
  - destruct (bit_change1_spec w i op Hok) as (w1 & -> & Hok1 & Hw1).
    cbn [mbind option_bind].
    destruct (IH w1 Hok1) as (w' & -> & Hok' & Hw').
    exists w'. split_and!; [done..|]. intros n. by rewrite Hw', Hw1.
Qed.

Lemma fold_op_bit_NoDup op (n : nat) (l : list nat) : ∀ b,
  NoDup l →
  fold_left (λ b i, op_bit op (bool_decide (n = i)) b) l b
  = op_bit op (bool_decide (n ∈ l)) b.
Proof.
  induction l as [|i l IH]; intros b Hnd; cbn [fold_left].
  - by rewrite bool_decide_eq_false_2, op_bit_false by by inversion 1.
  - apply list.NoDup_cons in Hnd as [Hi Hnd]. rewrite IH by done.
    destruct (decide (n = i)) as [->|Hne].
    + rewrite (bool_decide_eq_false_2 (i ∈ l)), op_bit_false by done.
      f_equal. rewrite !bool_decide_eq_true_2; [done | by left | done].
    + rewrite (bool_decide_eq_false_2 (n = i)), op_bit_false by done.
      f_equal. apply bool_decide_ext. rewrite elem_of_cons. intuition congruence.
Qed.

Lemma bit_change_each_range w l lo len op :
  big_whole_ok w = true → l ≡ₚ seq lo len →
  ∃ w', bit_change_each w l op = Some w'
    ∧ big_whole_ok w' = true
    ∧ ∀ n, test w' n = op_bit op (bool_decide (lo ≤ n < lo + len)) (test w n).
Proof.
  intros Hok Hperm.
  destruct (bit_change_each_spec l op w Hok) as (w' & -> & Hok' & Hw').
  exists w'. split_and!; [done..|]. intros n.
  rewrite Hw', fold_op_bit_NoDup.
  - f_equal. apply bool_decide_ext. rewrite Hperm. apply elem_of_seq.
  - rewrite Hperm. apply NoDup_seq.
Qed.

(** ** Construction from a mask and from an index list *)

Lemma words_for_bits_enough bits : bits ≤ words_for_bits bits * digits.
Proof.
  unfold words_for_bits. destruct (index_split bits) as [H1 H2].
  case_decide; unfold digits in *; lia.
Qed.

Lemma bit_of_alter_lor (temp : list Z) i n :
  i / digits < length temp →
  bit_of (alter (λ x, Z.lor x (wshl 1 (i mod digits))) (i / digits) temp) n
  = bit_of temp n || bool_decide (n = i).
Proof.
  intros Hi. unfold bit_of. rewrite nth_alter by done.
  destruct (index_split i) as [Hi1 Hi2], (index_split n) as [Hn1 Hn2].
  destruct (decide (n / digits = i / digits)) as [Hk|Hk].
  - rewrite Z.lor_spec, testbit_wshl_1_nat by done. f_equal.
    apply bool_decide_ext. unfold digits in *. lia.
  - rewrite bool_decide_eq_false_2; [by rewrite orb_false_r|]. by intros ->.
Qed.

Lemma bit_vector_to_va_loop_spec b : ∀ i (temp : list Z),
  i + length b ≤ length temp * digits →
  length (bit_vector_to_va_loop b i temp) = length temp
  ∧ ∀ n, bit_of (bit_vector_to_va_loop b i temp) n
         = bit_of temp n || (bool_decide (i ≤ n) && nth (n - i) b false).
Proof.
  induction b as [|bi b IH]; intros i temp Hlen; cbn [bit_vector_to_va_loop].
  { split; [done|]. intros n. destruct (n - i); cbn [nth].
    all: by rewrite andb_false_r, orb_false_r. }
  cbn [length] in Hlen.
  assert (i / digits < length temp) as Hi.
  { destruct (index_split i). unfold digits in *. nia. }
  set (temp' := if bi then alter _ _ temp else temp).
  assert (length temp' = length temp) as Hl'
    by (subst temp'; destruct bi; [apply length_alter | done]).
  assert (∀ n, bit_of temp' n = bit_of temp n || (bool_decide (n = i) && bi)) as Hb'.
  { intros n. subst temp'. destruct bi.
    - by rewrite bit_of_alter_lor, andb_true_r.
    - by rewrite andb_false_r, orb_false_r. }
  destruct (IH (S i) temp') as [IH1 IH2]; [lia|].
  split; [lia|]. intros n. rewrite IH2, Hb'.
  destruct (decide (n = i)) as [->|Hne].
  - rewrite Nat.sub_diag. cbn [nth].
    rewrite (bool_decide_eq_false_2 (S i ≤ i)) by lia.
    rewrite !bool_decide_eq_true_2 by lia. cbn [andb]. by rewrite orb_false_r.
  - rewrite (bool_decide_eq_false_2 (n = i)) by done. cbn [andb].
    rewrite orb_false_r. f_equal.
    destruct (decide (i ≤ n)) as [Hle|Hgt].
    + rewrite !bool_decide_eq_true_2 by lia.
      replace (n - i) with (S (n - S i)) by lia. done.
    + by rewrite !bool_decide_eq_false_2 by lia.
Qed.

Lemma bit_vector_to_va_loop_ok b : ∀ i (temp : list Z),
  va_ok temp = true → va_ok (bit_vector_to_va_loop b i temp) = true.
Proof.
  induction b as [|bi b IH]; intros i temp Hok; cbn [bit_vector_to_va_loop]; [done|].
  apply IH. destruct bi; [|done].
  apply va_ok_Forall, Forall_alter; [by apply va_ok_Forall|].
  intros x _ Hx. apply lor_ok; [done | apply wshl_ok].
Qed.

Lemma bit_of_zeros n i : bit_of (replicate n 0%Z) i = false.
Proof.
  change (replicate n 0%Z) with ([] ++ replicate n 0%Z).
  rewrite <- (va_equiv_bits [] _ i (va_equiv_pad [] n)). unfold bit_of.
  destruct (i / digits); apply Z.bits_0.
Qed.

Lemma bit_vector_to_va_bits b n : bit_of (bit_vector_to_va b) n = nth n b false.
Proof.
  unfold bit_vector_to_va. case_decide as Hb.
  - destruct (bit_vector_to_va_loop_spec b 0 (replicate (words_for_bits (length b)) 0%Z))
      as [_ H].
    { rewrite length_replicate. apply words_for_bits_enough. }
    rewrite H, bit_of_zeros, Nat.sub_0_r.
    by rewrite bool_decide_eq_true_2 by lia.
  - destruct b; [|simpl in Hb; lia]. unfold bit_of.
    destruct (n / digits), n; cbn [nth]; apply Z.bits_0.
Qed.

Lemma bit_vector_to_va_length b :
  length (bit_vector_to_va b) = words_for_bits (length b).
Proof.
  unfold bit_vector_to_va. case_decide as Hb.
  - destruct (bit_vector_to_va_loop_spec b 0 (replicate (words_for_bits (length b)) 0%Z))
      as [H _].
    { rewrite length_replicate. apply words_for_bits_enough. }
    by rewrite H, length_replicate.
  - by destruct b; [|simpl in Hb; lia].
Qed.

Lemma bit_vector_to_va_ok b : va_ok (bit_vector_to_va b) = true.
Proof.
  unfold bit_vector_to_va. case_decide; [|done].
  apply bit_vector_to_va_loop_ok, va_ok_replicate.
Qed.

Lemma test_from_bit_vector b n : test (from_bit_vector b) n = nth n b false.
Proof. rewrite test_bit_of. apply bit_vector_to_va_bits. Qed.

(** [temp[i] = true] sets exactly the listed entries that exist. *)
Lemma mask_assign_true_nth (l : list nat) : ∀ (temp : list bool) n,
  nth n (mask_assign_true l temp) false
  = nth n temp false || bool_decide (n ∈ l ∧ n < length temp).
Proof.
  unfold mask_assign_true.
  induction l as [|k l IH]; intros temp n; cbn [fold_left].
  { rewrite bool_decide_eq_false_2; [by rewrite orb_false_r|].
    intros [H _]. by apply elem_of_nil in H. }
  rewrite IH, length_insert, !nth_lookup.
  destruct (decide (n = k)) as [->|Hne].
  - destruct (decide (k < length temp)) as [Hlt|Hge].
    + rewrite list_lookup_insert_eq by done. cbn [default orb].
      rewrite (bool_decide_eq_true_2 (k ∈ k :: l ∧ _)); [by rewrite orb_true_r|].
      split; [by left | done].
    + rewrite list_insert_ge by lia. f_equal.
      rewrite !bool_decide_eq_false_2; [done | |]; by intros [_ ?].
  - rewrite list_lookup_insert_ne by done. f_equal.
    apply bool_decide_ext. rewrite elem_of_cons. intuition congruence.
Qed.

(** The mask that [bit_indices_to_va] and [to_bit_vector] build. *)
Lemma index_mask_nth (l : list nat) n :
  nth n (if decide (length l ≠ 0)
         then mask_assign_true l (replicate (max_list l + 1) false)
         else []) false
  = bool_decide (n ∈ l).
Proof.
  case_decide as Hl.
  - rewrite mask_assign_true_nth, length_replicate.
    rewrite nth_lookup.
    assert (default false (replicate (max_list l + 1) false !! n) = false) as ->.
    { destruct (replicate _ _ !! n) eqn:E; [|done].
      by apply lookup_replicate in E as [-> _]. }
    cbn [orb]. apply bool_decide_ext. split; [tauto|].
    intros H. split; [done|]. apply max_list_elem_of_le in H. lia.
  - destruct l; [|simpl in Hl; lia].
    rewrite bool_decide_eq_false_2 by by intros ?%elem_of_nil.
    by destruct n.
Qed.

Lemma test_from_bit_indices (l : list nat) n :
  test (from_bit_indices l) n = bool_decide (n ∈ l).
Proof.
  rewrite test_bit_of. unfold from_bit_indices, bit_indices_to_va, words.
  cbn [x_ default from_option id]. rewrite bit_vector_to_va_bits. apply index_mask_nth.
Qed.

Lemma from_bit_vector_ok b : big_whole_ok (from_bit_vector b) = true.
Proof. apply bit_vector_to_va_ok. Qed.

Lemma from_bit_indices_ok l : big_whole_ok (from_bit_indices l) = true.
Proof. apply bit_vector_to_va_ok. Qed.

(** ** [to_bit_indices] lists the set bits *)

Lemma elem_of_word_bit_indices w cnt : ∀ j jj x,
  j + cnt ≤ digits →
  x ∈ word_bit_indices w j jj cnt
  ↔ ∃ t, t < cnt ∧ x = jj + t ∧ Z.testbit w (Z.of_nat (j + t)) = true.
Proof.
  induction cnt as [|cnt IH]; intros j jj x Hj; cbn [word_bit_indices].
  { split; [by intros ?%elem_of_nil | intros (t & ? & _); lia]. }
  rewrite elem_of_app, IH, nonzero_wshl_land by lia. split.
  - intros [Hx|(t & Ht & -> & Hb)].
    + destruct (Z.testbit w (Z.of_nat j)) eqn:E; [|by apply elem_of_nil in Hx].
      apply list_elem_of_singleton in Hx as ->.
      exists 0. rewrite !Nat.add_0_r. split_and!; [lia | done..].
    + exists (S t). split_and!; [lia | lia |].
      by replace (j + S t) with (S j + t) by lia.
  - intros ([|t] & Ht & -> & Hb).
    + left. rewrite Nat.add_0_r in *. rewrite Hb. by apply list_elem_of_singleton.
    + right. exists t. split_and!; [lia | lia |].
      by replace (S j + t) with (j + S t) by lia.
Qed.

Lemma bit_of_cons w (v : list Z) y :
  bit_of (w :: v) y =
  if decide (y < digits) then Z.testbit w (Z.of_nat y) else bit_of v (y - digits).
Proof.
  unfold bit_of. case_decide as Hy.
  - by rewrite Nat.div_small, Nat.mod_small by done.
  - replace y with ((y - digits) + 1 * digits) at 1 2 by lia.
    rewrite Nat.div_add, Nat.Div0.mod_add by done.
    by rewrite Nat.add_1_r.
Qed.

Lemma elem_of_to_bit_indices_loop (v : list Z) : ∀ ii x,
  x ∈ to_bit_indices_loop v ii ↔ ii ≤ x ∧ bit_of v (x - ii) = true.
Proof.
  induction v as [|w v IH]; intros ii x; cbn [to_bit_indices_loop].
  { split; [by intros ?%elem_of_nil|]. intros [_ H]. unfold bit_of in H.
    destruct ((x - ii) / digits); by rewrite Z.bits_0 in H. }
  rewrite elem_of_app, IH, elem_of_word_bit_indices, bit_of_cons by done.
  case_decide as Hy; split.
  - intros [(t & Ht & -> & Hb)|[Hx Hb]]; [|lia].
    split; [lia|]. by replace (ii + t - ii) with t by lia.
  - intros [Hx Hb]. left. exists (x - ii). split_and!; [done | lia | done].
  - intros [(t & Ht & -> & Hb)|[Hx Hb]]; [lia|].
    split; [lia|]. by replace (x - ii - digits) with (x - (ii + digits)) by lia.
  - intros [Hx Hb]. right. split; [lia|].
    by replace (x - (ii + digits)) with (x - ii - digits) by lia.
Qed.

Lemma elem_of_to_bit_indices w x : x ∈ to_bit_indices w ↔ test w x = true.
Proof.
  rewrite to_bit_indices_words, test_bit_of, elem_of_to_bit_indices_loop.
  rewrite Nat.sub_0_r. split; [by intros [_ ?] | intros; split; [lia | done]].
Qed.

Lemma test_from_to_bit_indices w n :
  test (from_bit_indices (to_bit_indices w)) n = test w n.
Proof.
  rewrite test_from_bit_indices. destruct (test w n) eqn:E.
  - by apply bool_decide_eq_true_2, elem_of_to_bit_indices.
  - apply bool_decide_eq_false_2. rewrite elem_of_to_bit_indices. congruence.
Qed.

Lemma to_bit_vector_nth w n : nth n (to_bit_vector w) false = test w n.
Proof.
  unfold to_bit_vector. cbv zeta. rewrite index_mask_nth. destruct (test w n) eqn:E.
  - by apply bool_decide_eq_true_2, elem_of_to_bit_indices.
  - apply bool_decide_eq_false_2. rewrite elem_of_to_bit_indices. congruence.
Qed.

Lemma test_from_to_bit_vector w n :
  test (from_bit_vector (to_bit_vector w)) n = test w n.
Proof. by rewrite test_from_bit_vector, to_bit_vector_nth. Qed.

(** ** [bits_assign] *)








(** ** [not_self] *)

Lemma copy_id w : copy w = w.
Proof. unfold copy. by destruct w as [[v|]]. Qed.

Lemma any_true_iff w :
  big_whole_ok w = true → any w = true ↔ ∃ i, test w i = true.
Proof.
  intros Hok. split.
  - intros Hany. destruct (length_spec w Hok) as (Hz & _ & Htop).
    exists (length_ w - 1). rewrite test_bit_of. apply Htop.
    destruct (length_ w) eqn:E; [|lia].
    assert (any w = false) by (apply any_false_iff; [done|]; by apply Hz).
    congruence.
  - intros [i Hi]. destruct (any w) eqn:E; [done|].
    rewrite test_bit_of, words_zero_bits in Hi; [done|].
    by apply any_false_iff.
Qed.

Lemma test_one i : test (mk_big_whole (Some (replicate 1 1%Z))) i = bool_decide (i = 0).
Proof.
  rewrite test_bit_of. cbn [words x_ default from_option id replicate].
  rewrite bit_of_cons. destruct (index_split i) as [Hi1 Hi2]. case_decide as Hlt.
  - case_bool_decide as H0; [by subst|].
    change 1%Z with (2 ^ 0)%Z. apply Z.pow2_bits_false. lia.
  - rewrite bool_decide_eq_false_2 by (unfold digits in *; lia).
    unfold bit_of. destruct ((i - digits) / digits); apply Z.bits_0.
Qed.

(** ** The scenarios of the specification, run on the model *)

Example scenario_from_zero :
  length_ (from_uintmax 0) = 0
  ∧ any (from_uintmax 0) = false
  ∧ to_bit_indices (from_uintmax 0) = [].
Proof. by split_and!. Qed.

Example scenario_from_five :
  to_bit_indices (from_uintmax 5) = [0; 2]
  ∧ length_ (from_uintmax 5) = 3
  ∧ count (from_uintmax 5) = 2.
Proof. by split_and!. Qed.

Example scenario_set_10 :
  (λ w, (length_ w, to_bit_indices w)) <$> set zero 10 = Some (11, [10]).
Proof. reflexivity. Qed.

Example scenario_tests :
  to_bit_indices (tests (from_bit_indices [1; 3; 5]) 2 4) = [1].
Proof. reflexivity. Qed.

Example scenario_reverse :
  to_bit_indices (reverse_cap (from_bit_indices [0; 2]) 3) = [1; 3].
Proof. reflexivity. Qed.

(** * The properties of the specification *)

Lemma same_reads_refl w : same_reads w w.
Proof. unfold same_reads. by split_and!. Qed.

(** C1. Canonical length: [length] is zero exactly when [any] is false;
    a positive length [L] has bit [L - 1] set, and no bit at or above
    [L] is set. *)
Theorem length_canonical w :
  big_whole_ok w = true →
  (length_ w = 0 ↔ any w = false)
  ∧ (∀ L, length_ w = L → 0 < L →
       test w (L - 1) = true ∧ ∀ i, L ≤ i → test w i = false).
Proof.
  intros Hok. destruct (length_spec w Hok) as (Hz & Habove & Htop). split.
  - rewrite Hz. symmetry. by apply any_false_iff.
  - intros L <- HL. split.
    + rewrite test_bit_of. by apply Htop.
    + intros i Hi. rewrite test_bit_of. by apply Habove.
Qed.

Lemma length_canonical_witness :
  big_whole_ok (mk_big_whole (Some [5%Z; 0%Z])) = true
  ∧ ((length_ (mk_big_whole (Some [5%Z; 0%Z])) = 0
      ↔ any (mk_big_whole (Some [5%Z; 0%Z])) = false)
     ∧ (∀ L, length_ (mk_big_whole (Some [5%Z; 0%Z])) = L → 0 < L →
          test (mk_big_whole (Some [5%Z; 0%Z])) (L - 1) = true
          ∧ ∀ i, L ≤ i → test (mk_big_whole (Some [5%Z; 0%Z])) i = false)).
Proof.
  split; [reflexivity|].
  apply (length_canonical (mk_big_whole (Some [5%Z; 0%Z]))). reflexivity.
Defined.

(** C2. Range equals iterated single-bit: for endpoints [a], [b] in
    either order, one call of the range form of set, reset or flip and
    the single-bit form applied once to every index between them, in any
    order [l], both return, and the two results agree under [test] at
    every index, under [length] and under [count]. *)
Theorem range_equals_iterated_single_bit w a b op (l : list nat) :
  big_whole_ok w = true →
  l ≡ₚ seq (a `min` b) (S (a `max` b - a `min` b)) →
  ∃ r s, bit_change w a b op = Some r
    ∧ bit_change_each w l op = Some s
    ∧ (∀ i, test r i = test s i)
    ∧ length_ r = length_ s
    ∧ count r = count s.
Proof.
  intros Hok Hperm.
  destruct (bit_change_spec w a b op Hok) as (r & Hr & Hokr & Hbr).
  destruct (bit_change_each_range w l _ _ op Hok Hperm) as (s & Hs & Hoks & Hbs).
  exists r, s. split; [done|]. split; [done|].
  assert (∀ i, test r i = test s i) as Hbits.
  { intros i. rewrite Hbr, Hbs. f_equal. apply bool_decide_ext. lia. }
  destruct (test_same_reads r s Hokr Hoks Hbits) as (Hlen & Hcount & _).
  done.
Qed.

Lemma range_equals_iterated_single_bit_witness :
  ∃ r s, bit_change (from_bit_indices [1; 33]) 34 31 flip_bit = Some r
    ∧ bit_change_each (from_bit_indices [1; 33]) [33; 31; 34; 32] flip_bit = Some s
    ∧ (∀ i, test r i = test s i)
    ∧ length_ r = length_ s
    ∧ count r = count s.
Proof.
  apply (range_equals_iterated_single_bit
           (from_bit_indices [1; 33]) 34 31 flip_bit [33; 31; 34; 32]).
  - reflexivity.
  - apply (Permutation_cons_app [31; 32] [34] 33).
    apply perm_skip. apply perm_swap.
Defined.


(** The same scenario with the endpoints swapped. *)
Lemma bits_assign_scenario :
  to_bit_indices <$> bits_assign (from_bit_indices [0; 5]) 4 2 (from_bit_indices [0; 1])
  = Some [0; 2; 3; 5].
Proof. reflexivity. Qed.

Lemma canonical_trim (v : list Z) : canonical (take (wlength v) v).
Proof.
  unfold canonical. destruct (wlength v) as [|o] eqn:E; [done|].
  pose proof (wlength_le v) as Hle. pose proof (wlength_top v o E) as Htop.
  rewrite last_lookup, length_take, Nat.min_l by lia. cbn [pred].
  rewrite lookup_take_lt by lia. rewrite nth_lookup in Htop.
  by destruct (v !! o).
Qed.

(** C4 fails as stated: the mask of one false entry is stored as one
    zero word. *)
Lemma mask_construction_keeps_zero_words :
  x_ (from_bit_vector [false]) = Some [0%Z]
  ∧ ¬ canonical (words (from_bit_vector [false])).
Proof. split; [reflexivity|]. intros H. by apply H. Qed.

(** C4, amended.  Construction from a mask [b] sets bit [i] exactly
    where [b[i]] is true; the stored sequence has [words_for_bits] of the
    mask size words, all in range, whatever their value: nothing is
    trimmed.  The words up to the highest non-zero one, which are those
    that [length] takes into account, do form a canonical sequence. *)
Theorem mask_construction_bits (b : list bool) :
  (∀ i, test (from_bit_vector b) i = nth i b false)
  ∧ x_ (from_bit_vector b) = Some (bit_vector_to_va b)
  ∧ length (bit_vector_to_va b) = words_for_bits (length b)
  ∧ big_whole_ok (from_bit_vector b) = true
  ∧ canonical (take (wlength (bit_vector_to_va b)) (bit_vector_to_va b)).
Proof.
  split_and!.
  - intros i. apply test_from_bit_vector.
  - done.
  - apply bit_vector_to_va_length.
  - apply from_bit_vector_ok.
  - apply canonical_trim.
Qed.

(** C5. Round trip: the value rebuilt from [to_bit_indices], and the one
    rebuilt from [to_bit_vector], equal the original under [to_uintmax],
    under [to_bit_vector] and under [test] at every index. *)
Theorem round_trip w :
  big_whole_ok w = true →
  (to_uintmax (from_bit_indices (to_bit_indices w)) = to_uintmax w
   ∧ to_bit_vector (from_bit_indices (to_bit_indices w)) = to_bit_vector w
   ∧ ∀ i, test (from_bit_indices (to_bit_indices w)) i = test w i)
  ∧ (to_uintmax (from_bit_vector (to_bit_vector w)) = to_uintmax w
     ∧ to_bit_vector (from_bit_vector (to_bit_vector w)) = to_bit_vector w
     ∧ ∀ i, test (from_bit_vector (to_bit_vector w)) i = test w i).
Proof.
  intros Hok. split.
  - destruct (test_same_reads (from_bit_indices (to_bit_indices w)) w)
      as (_ & _ & _ & _ & Ht & _ & Hv & Hu);
      [apply from_bit_indices_ok | done | apply test_from_to_bit_indices | done].
  - destruct (test_same_reads (from_bit_vector (to_bit_vector w)) w)
      as (_ & _ & _ & _ & Ht & _ & Hv & Hu);
      [apply from_bit_vector_ok | done | apply test_from_to_bit_vector | done].
Qed.

Lemma round_trip_witness :
  big_whole_ok (mk_big_whole (Some [6%Z; 0%Z; 1%Z; 0%Z])) = true
  ∧ ((to_uintmax (from_bit_indices (to_bit_indices (mk_big_whole (Some [6%Z; 0%Z; 1%Z; 0%Z]))))
      = to_uintmax (mk_big_whole (Some [6%Z; 0%Z; 1%Z; 0%Z]))
      ∧ to_bit_vector (from_bit_indices (to_bit_indices (mk_big_whole (Some [6%Z; 0%Z; 1%Z; 0%Z]))))
        = to_bit_vector (mk_big_whole (Some [6%Z; 0%Z; 1%Z; 0%Z]))
      ∧ ∀ i, test (from_bit_indices (to_bit_indices (mk_big_whole (Some [6%Z; 0%Z; 1%Z; 0%Z])))) i
             = test (mk_big_whole (Some [6%Z; 0%Z; 1%Z; 0%Z])) i)
     ∧ (to_uintmax (from_bit_vector (to_bit_vector (mk_big_whole (Some [6%Z; 0%Z; 1%Z; 0%Z]))))
        = to_uintmax (mk_big_whole (Some [6%Z; 0%Z; 1%Z; 0%Z]))
        ∧ to_bit_vector (from_bit_vector (to_bit_vector (mk_big_whole (Some [6%Z; 0%Z; 1%Z; 0%Z]))))
          = to_bit_vector (mk_big_whole (Some [6%Z; 0%Z; 1%Z; 0%Z]))
        ∧ ∀ i, test (from_bit_vector (to_bit_vector (mk_big_whole (Some [6%Z; 0%Z; 1%Z; 0%Z])))) i
               = test (mk_big_whole (Some [6%Z; 0%Z; 1%Z; 0%Z])) i)).
Proof.
  split; [reflexivity|].
  apply (round_trip (mk_big_whole (Some [6%Z; 0%Z; 1%Z; 0%Z]))). reflexivity.
Defined.

(** C6. Every read operation returns the same on a representation and
    on the same words followed by any number of zero words, a null
    buffer counting as no words; in particular on the null and the empty
    buffer. *)
Theorem reads_ignore_representation w1 w2 (n : nat) :
  big_whole_ok w1 = true →
  words w2 = words w1 ++ replicate n 0%Z →
  same_reads w1 w2
  ∧ same_reads (mk_big_whole None) (mk_big_whole (Some [])).
Proof.
  intros Hok Hw. split.
  - apply va_equiv_same_reads; [done | |].
    + rewrite big_whole_ok_words, Hw, va_ok_app, va_ok_replicate.
      by rewrite <- big_whole_ok_words, Hok.
    + rewrite Hw. apply va_equiv_pad.
  - apply va_equiv_same_reads; done.
Qed.

Lemma reads_ignore_representation_witness :
  big_whole_ok (mk_big_whole (Some [5%Z; 9%Z])) = true
  ∧ words (mk_big_whole (Some [5%Z; 9%Z; 0%Z; 0%Z]))
    = words (mk_big_whole (Some [5%Z; 9%Z])) ++ replicate 2 0%Z
  ∧ same_reads (mk_big_whole (Some [5%Z; 9%Z])) (mk_big_whole (Some [5%Z; 9%Z; 0%Z; 0%Z]))
  ∧ same_reads (mk_big_whole None) (mk_big_whole (Some [])).
Proof.
  split; [reflexivity|]. split; [reflexivity|].
  apply (reads_ignore_representation
           (mk_big_whole (Some [5%Z; 9%Z])) (mk_big_whole (Some [5%Z; 9%Z; 0%Z; 0%Z])) 2);
    reflexivity.
Defined.



(** C8. [to_uintmax] returns the low [uintmax_digits] bits: bit [i] of
    the result is [test i] below that width, and the result fits the
    width whatever is stored above. *)
Theorem to_uintmax_low_bits w :
  big_whole_ok w = true →
  (∀ i, i < uintmax_digits → Z.testbit (to_uintmax w) (Z.of_nat i) = test w i)
  ∧ (0 ≤ to_uintmax w < 2 ^ Z.of_nat uintmax_digits)%Z.
Proof.
  intros Hok. split.
  - intros i Hi. rewrite test_bit_of. by apply to_uintmax_bits.
  - apply to_uintmax_range.
Qed.

Lemma to_uintmax_low_bits_witness :
  big_whole_ok (mk_big_whole (Some [1%Z; 2%Z; 3%Z])) = true
  ∧ (∀ i, i < uintmax_digits →
       Z.testbit (to_uintmax (mk_big_whole (Some [1%Z; 2%Z; 3%Z]))) (Z.of_nat i)
       = test (mk_big_whole (Some [1%Z; 2%Z; 3%Z])) i)
  ∧ (0 ≤ to_uintmax (mk_big_whole (Some [1%Z; 2%Z; 3%Z])) < 2 ^ Z.of_nat uintmax_digits)%Z.
Proof.
  split; [reflexivity|].
  apply (to_uintmax_low_bits (mk_big_whole (Some [1%Z; 2%Z; 3%Z]))). reflexivity.
Defined.

(** C9. [not_self] sends a value with some bit set to zero and the zero
    value to one, the single bit 0; [operator !] returns that of a copy
    and leaves its operand as it was. *)
Theorem not_self_logical w :
  big_whole_ok w = true →
  ((∃ i, test w i = true) → same_reads (not_self w) zero)
  ∧ ((∀ i, test w i = false) →
       same_reads (not_self w) (from_uintmax 1)
       ∧ to_bit_indices (not_self w) = [0]
       ∧ ∀ i, test (not_self w) i = bool_decide (i = 0))
  ∧ operator_not w = (w, not_self w).
Proof.
  intros Hok. split_and!.
  - intros Hany%any_true_iff; [|done]. unfold not_self. rewrite Hany.
    apply same_reads_refl.
  - intros Hz. assert (any w = false) as Hany.
    { destruct (any w) eqn:E; [|done].
      apply any_true_iff in E as [i Hi]; [|done]. by rewrite Hz in Hi. }
    unfold not_self. rewrite Hany. split_and!.
    + apply same_reads_refl.
    + reflexivity.
    + apply test_one.
  - unfold operator_not. by rewrite copy_id.
Qed.

Lemma not_self_logical_witness :
  big_whole_ok (mk_big_whole (Some [0%Z; 6%Z])) = true
  ∧ ((∃ i, test (mk_big_whole (Some [0%Z; 6%Z])) i = true) →
       same_reads (not_self (mk_big_whole (Some [0%Z; 6%Z]))) zero)
  ∧ ((∀ i, test (mk_big_whole (Some [0%Z; 6%Z])) i = false) →
       same_reads (not_self (mk_big_whole (Some [0%Z; 6%Z]))) (from_uintmax 1)
       ∧ to_bit_indices (not_self (mk_big_whole (Some [0%Z; 6%Z]))) = [0]
       ∧ ∀ i, test (not_self (mk_big_whole (Some [0%Z; 6%Z]))) i = bool_decide (i = 0))
  ∧ operator_not (mk_big_whole (Some [0%Z; 6%Z]))
    = (mk_big_whole (Some [0%Z; 6%Z]), not_self (mk_big_whole (Some [0%Z; 6%Z]))).
Proof.
  split; [reflexivity|].
  apply (not_self_logical (mk_big_whole (Some [0%Z; 6%Z]))). reflexivity.
Defined.

(** C10 fails as stated: [epsilon] and [round_error] are declared and
    never defined, so neither returns a value. *)
Lemma epsilon_round_error_never_defined :
  ¬ (∃ e r, call numeric_limits.epsilon = Some e
          ∧ call numeric_limits.round_error = Some r
          ∧ any e = false ∧ any r = false).
Proof. intros (e & r & He & _). discriminate He. Qed.

(** C10, amended.  The traits report a minimum of zero and the markers
    unsigned, integer, exact and unbounded, with no infinity and no NaN;
    [max], [epsilon] and [round_error] are declared only. *)
Theorem numeric_limits_surface :
  (∃ z, call numeric_limits.min = Some z ∧ same_reads z zero)
  ∧ numeric_limits.epsilon = never_defined
  ∧ numeric_limits.round_error = never_defined
  ∧ numeric_limits.max = never_defined
  ∧ numeric_limits.is_signed = false
  ∧ numeric_limits.is_integer = true
  ∧ numeric_limits.is_exact = true
  ∧ numeric_limits.is_bounded = false
  ∧ numeric_limits.has_infinity = false
  ∧ numeric_limits.has_quiet_NaN = false
  ∧ numeric_limits.has_signaling_NaN = false.
Proof.
  split_and!; try reflexivity.
  exists zero. split; [reflexivity | apply same_reads_refl].
Qed.

(** * Further properties of the header *)

(** ** Construction from a native integer *)

Lemma uintmax_to_va_cases v :
  uintmax_to_va v =
  if nonzero v
  then if nonzero (Z.shiftr v (Z.of_nat digits))
       then [to_word v; to_word (Z.shiftr v (Z.of_nat digits))]
       else [to_word v]
  else [].
Proof.
  unfold uintmax_to_va.
  destruct (decide (digits < uintmax_digits)) as [_|H];
    [|exfalso; apply H; unfold digits, uintmax_digits; lia].
  change (words_for_bits uintmax_digits) with 2.
  cbn [uintmax_to_va_loop replicate].
  destruct (nonzero v); [|done].
  destruct (nonzero (Z.shiftr v (Z.of_nat digits))); reflexivity.
Qed.

Lemma uintmax_high_zero v :
  (0 ≤ v < 2 ^ Z.of_nat uintmax_digits)%Z →
  ∀ n, (Z.of_nat uintmax_digits ≤ n)%Z → Z.testbit v n = false.
Proof.
  intros Hv n Hn. rewrite <- (Z.mod_small v (2 ^ Z.of_nat uintmax_digits)) by done.
  apply Z.mod_pow2_bits_high. lia.
Qed.

Lemma uintmax_to_va_bits v i :
  (0 ≤ v < 2 ^ Z.of_nat uintmax_digits)%Z →
  bit_of (uintmax_to_va v) i = Z.testbit v (Z.of_nat i).
Proof.
  intros Hv. rewrite uintmax_to_va_cases.
  destruct (index_split i) as [Hi1 Hi2].
  assert (∀ j : nat, j < digits →
            Z.testbit (to_word v) (Z.of_nat j) = Z.testbit v (Z.of_nat j)) as Hlow.
  { intros j Hj. rewrite testbit_to_word.
    destruct (Z.ltb_spec (Z.of_nat j) (Z.of_nat digits)); [done | lia]. }
  assert (∀ j : nat, j < digits →
            Z.testbit (to_word (Z.shiftr v (Z.of_nat digits))) (Z.of_nat j)
            = Z.testbit v (Z.of_nat (digits + j))) as Hhigh.
  { intros j Hj. rewrite testbit_to_word, Z.shiftr_spec by lia.
    destruct (Z.ltb_spec (Z.of_nat j) (Z.of_nat digits)); [|lia].
    cbn [andb]. f_equal. lia. }
  assert (∀ x, nonzero x = false → ∀ n, Z.testbit x n = false) as Hzero.
  { intros x ->%nonzero_false n. apply Z.bits_0. }
  destruct (nonzero v) eqn:E0.
  2:{ rewrite (Hzero v E0). unfold bit_of. destruct (i / digits); apply Z.bits_0. }
  destruct (nonzero (Z.shiftr v (Z.of_nat digits))) eqn:E1.
  - rewrite bit_of_cons. case_decide as H1; [by apply Hlow|].
    rewrite bit_of_cons. case_decide as H2.
    + rewrite Hhigh by done. f_equal. lia.
    + unfold bit_of.
      rewrite (uintmax_high_zero v Hv) by (unfold digits, uintmax_digits in *; lia).
      destruct ((i - digits - digits) / digits); apply Z.bits_0.
  - rewrite bit_of_cons. case_decide as H1; [by apply Hlow|].
    pose proof (Hzero _ E1 (Z.of_nat (i - digits))) as Hb.
    rewrite Z.shiftr_spec in Hb by lia.
    replace (Z.of_nat (i - digits) + Z.of_nat digits)%Z with (Z.of_nat i) in Hb by lia.
    rewrite Hb. unfold bit_of. destruct ((i - digits) / digits); apply Z.bits_0.
Qed.

Lemma from_uintmax_ok v : big_whole_ok (from_uintmax v) = true.
Proof.
  unfold big_whole_ok. cbn [from_uintmax x_]. rewrite uintmax_to_va_cases.
  destruct (nonzero v); [|done].
  destruct (nonzero _); cbn [va_ok forallb]; by rewrite !to_word_ok.
Qed.

Lemma test_from_uintmax v i :
  (0 ≤ v < 2 ^ Z.of_nat uintmax_digits)%Z →
  test (from_uintmax v) i = Z.testbit v (Z.of_nat i).
Proof. intros Hv. rewrite test_bit_of. by apply uintmax_to_va_bits. Qed.

(** A length is settled by the bits: the only [L] with bit [L - 1] set
    and no bit at or above [L] set. *)
Lemma length_unique w L :
  big_whole_ok w = true →
  (∀ i, L ≤ i → test w i = false) →
  (0 < L → test w (L - 1) = true) →
  length_ w = L.
Proof.
  intros Hok Habove Htop.
  destruct (length_spec w Hok) as (_ & Habove0 & Htop0).
  destruct (Nat.lt_trichotomy (length_ w) L) as [Hlt|[Heq|Hgt]]; [|done|].
  - specialize (Htop ltac:(lia)). rewrite test_bit_of, Habove0 in Htop by lia. done.
  - specialize (Htop0 ltac:(lia)). rewrite <- test_bit_of, Habove in Htop0 by lia. done.
Qed.

(** X1. A native integer survives the trip through a [big_whole]:
    [to_uintmax] of the value constructed from [v] is [v]. *)
Theorem uintmax_round_trip v :
  (0 ≤ v < 2 ^ Z.of_nat uintmax_digits)%Z →
  to_uintmax (from_uintmax v) = v.
Proof.
  intros Hv. apply Z.bits_inj'. intros n Hn.
  destruct (Z.ltb_spec n (Z.of_nat uintmax_digits)).
  - rewrite <- (Z2Nat.id n Hn).
    rewrite to_uintmax_bits, <- test_bit_of by (apply from_uintmax_ok || lia).
    by apply test_from_uintmax.
  - rewrite (uintmax_high_zero v) by done.
    pose proof (to_uintmax_range (from_uintmax v)) as Hr.
    by apply (uintmax_high_zero _ Hr).
Qed.

Lemma uintmax_round_trip_witness :
  to_uintmax (from_uintmax 1099511627779) = 1099511627779%Z.
Proof. apply (uintmax_round_trip 1099511627779). by vm_compute. Defined.

(** X2. The words built from a native integer are canonical and in
    range: at most two of them, none for 0, and the last one non-zero. *)
Theorem from_uintmax_canonical v :
  (0 ≤ v < 2 ^ Z.of_nat uintmax_digits)%Z →
  big_whole_ok (from_uintmax v) = true
  ∧ canonical (words (from_uintmax v))
  ∧ length (words (from_uintmax v)) ≤ 2
  ∧ (v = 0%Z → x_ (from_uintmax v) = Some []).
Proof.
  intros Hv. split; [apply from_uintmax_ok|].
  cbn [words from_uintmax x_ default from_option id].
  rewrite uintmax_to_va_cases.
  assert (0 ≤ Z.shiftr v (Z.of_nat digits) < 2 ^ Z.of_nat digits)%Z as Hs.
  { rewrite Z.shiftr_div_pow2 by lia.
    change (2 ^ Z.of_nat uintmax_digits)%Z
      with (2 ^ Z.of_nat digits * 2 ^ Z.of_nat digits)%Z in Hv.
    split; [apply Z.div_pos; lia|]. apply Z.div_lt_upper_bound; lia. }
  destruct (nonzero v) eqn:E0.
  2:{ split_and!; [done | cbn; lia | done]. }
  apply nonzero_true in E0.
  destruct (nonzero (Z.shiftr v (Z.of_nat digits))) eqn:E1.
  - apply nonzero_true in E1. split_and!; [|cbn; lia|done].
    unfold canonical. cbn [list.last].
    by rewrite to_word_id by by apply word_ok_iff.
  - apply nonzero_false in E1. split_and!; [|cbn; lia|done].
    unfold canonical. cbn [list.last].
    assert (v < 2 ^ Z.of_nat digits)%Z as Hlt.
    { rewrite Z.shiftr_div_pow2 in E1 by lia.
      apply Z.div_small_iff in E1; lia. }
    rewrite to_word_id; [done|]. apply word_ok_iff. lia.
Qed.

Lemma from_uintmax_canonical_witness :
  big_whole_ok (from_uintmax 4294967296) = true
  ∧ canonical (words (from_uintmax 4294967296))
  ∧ length (words (from_uintmax 4294967296)) ≤ 2
  ∧ (4294967296%Z = 0%Z → x_ (from_uintmax 4294967296) = Some []).
Proof. apply (from_uintmax_canonical 4294967296). by vm_compute. Defined.

(** X3. The value constructed from a native integer [v] has exactly the
    bits of [v], and for [v > 0] its length is the position of the
    highest set bit of [v] plus one. *)
Theorem from_uintmax_bits v :
  (0 ≤ v < 2 ^ Z.of_nat uintmax_digits)%Z →
  (∀ i, test (from_uintmax v) i = Z.testbit v (Z.of_nat i))
  ∧ length_ (from_uintmax v) = (if decide (v = 0%Z) then 0 else Z.to_nat (Z.log2 v + 1)).
Proof.
  intros Hv. split; [intros i; by apply test_from_uintmax|].
  apply length_unique; [apply from_uintmax_ok | |].
  - intros i Hi. rewrite test_from_uintmax by done. case_decide as H0.
    + subst v. apply Z.bits_0.
    + apply Z.bits_above_log2; [lia|]. pose proof (Z.log2_nonneg v). lia.
  - case_decide as H0; [lia|]. intros _.
    rewrite test_from_uintmax by done.
    pose proof (Z.log2_nonneg v).
    replace (Z.of_nat (Z.to_nat (Z.log2 v + 1) - 1)) with (Z.log2 v) by lia.
    apply Z.bit_log2. lia.
Qed.

Lemma from_uintmax_bits_witness :
  (∀ i, test (from_uintmax 5) i = Z.testbit 5 (Z.of_nat i))
  ∧ length_ (from_uintmax 5) = (if decide (5%Z = 0%Z) then 0 else Z.to_nat (Z.log2 5 + 1)).
Proof. apply (from_uintmax_bits 5). by vm_compute. Defined.

(** X4. A value of at most [uintmax_digits] bits is not truncated by
    [to_uintmax]: constructing from the result gives back a value with
    the same reads. *)
Theorem to_uintmax_no_truncation w :
  big_whole_ok w = true → length_ w ≤ uintmax_digits →
  same_reads (from_uintmax (to_uintmax w)) w.
Proof.
  intros Hok Hlen. apply test_same_reads; [apply from_uintmax_ok | done |].
  intros i. rewrite test_from_uintmax by apply to_uintmax_range.
  destruct (decide (i < uintmax_digits)) as [Hi|Hi].
  - rewrite to_uintmax_bits, <- test_bit_of by done. done.
  - rewrite (uintmax_high_zero _ (to_uintmax_range w)) by lia.
    destruct (length_spec w Hok) as (_ & Habove & _).
    rewrite test_bit_of, Habove by lia. done.
Qed.

Lemma to_uintmax_no_truncation_witness :
  same_reads (from_uintmax (to_uintmax (mk_big_whole (Some [7%Z; 1%Z; 0%Z]))))
    (mk_big_whole (Some [7%Z; 1%Z; 0%Z])).
Proof.
  apply (to_uintmax_no_truncation (mk_big_whole (Some [7%Z; 1%Z; 0%Z])));
    [reflexivity | vm_compute; lia].
Defined.

(** ** Setting, resetting and flipping *)

Lemma length_mono r w :
  big_whole_ok r = true → big_whole_ok w = true →
  (∀ i, test r i = true → test w i = true) → length_ r ≤ length_ w.
Proof.
  intros Hr Hw Hsub.
  destruct (length_spec r Hr) as (_ & _ & Htop).
  destruct (length_spec w Hw) as (_ & Habove & _).
  destruct (decide (length_ r ≤ length_ w)) as [|Hgt]; [done|].
  specialize (Htop ltac:(lia)). rewrite <- test_bit_of in Htop.
  apply Hsub in Htop. rewrite test_bit_of, Habove in Htop by lia. done.
Qed.

(** X5. The single-bit forms always return; afterwards bit [i] is set
    (set), clear (reset) or inverted (flip), and every other bit is as
    before. *)
Theorem single_bit_consistency w i op :
  big_whole_ok w = true →
  ∃ r, bit_change1 w i op = Some r
    ∧ big_whole_ok r = true
    ∧ test r i = match op with
                 | set_bit => true
                 | reset_bit => false
                 | flip_bit => negb (test w i)
                 end
    ∧ ∀ j, j ≠ i → test r j = test w j.
Proof.
  intros Hok. destruct (bit_change1_spec w i op Hok) as (r & Hr & Hokr & Hb).
  exists r. split_and!; [done..| |].
  - rewrite Hb, bool_decide_eq_true_2 by done.
    destruct op, (test w i); done.
  - intros j Hj. by rewrite Hb, bool_decide_eq_false_2, op_bit_false.
Qed.

Lemma single_bit_consistency_witness :
  ∃ r, bit_change1 (from_bit_indices [1; 40]) 70 flip_bit = Some r
    ∧ big_whole_ok r = true
    ∧ test r 70 = negb (test (from_bit_indices [1; 40]) 70)
    ∧ ∀ j, j ≠ 70 → test r j = test (from_bit_indices [1; 40]) j.
Proof.
  apply (single_bit_consistency (from_bit_indices [1; 40]) 70 flip_bit). reflexivity.
Defined.

(** X6. The range forms always return; afterwards every bit between the
    endpoints, given in either order, is set (set), clear (reset) or
    inverted (flip), and every bit outside is as before. *)
Theorem range_consistency w a b op :
  big_whole_ok w = true →
  ∃ r, bit_change w a b op = Some r
    ∧ big_whole_ok r = true
    ∧ (∀ i, a `min` b ≤ i ≤ a `max` b →
         test r i = match op with
                    | set_bit => true
                    | reset_bit => false
                    | flip_bit => negb (test w i)
                    end)
    ∧ (∀ i, ¬ (a `min` b ≤ i ≤ a `max` b) → test r i = test w i).
Proof.
  intros Hok. destruct (bit_change_spec w a b op Hok) as (r & Hr & Hokr & Hb).
  exists r. split_and!; [done..| |].
  - intros i Hi. rewrite Hb, bool_decide_eq_true_2 by done.
    destruct op, (test w i); done.
  - intros i Hi. by rewrite Hb, bool_decide_eq_false_2, op_bit_false.
Qed.

Lemma range_consistency_witness :
  ∃ r, bit_change (from_bit_indices [1; 40]) 66 30 reset_bit = Some r
    ∧ big_whole_ok r = true
    ∧ (∀ i, 66 `min` 30 ≤ i ≤ 66 `max` 30 → test r i = false)
    ∧ (∀ i, ¬ (66 `min` 30 ≤ i ≤ 66 `max` 30) →
         test r i = test (from_bit_indices [1; 40]) i).
Proof.
  apply (range_consistency (from_bit_indices [1; 40]) 66 30 reset_bit). reflexivity.
Defined.

(** X7. Applying a range form twice over the same range: set and reset
    are idempotent, flip is an involution, as far as any read can
    tell. *)
Theorem range_twice w a b op :
  big_whole_ok w = true →
  ∃ r1 r2, bit_change w a b op = Some r1
    ∧ bit_change r1 a b op = Some r2
    ∧ same_reads r2 (match op with flip_bit => w | _ => r1 end).
Proof.
  intros Hok.
  destruct (bit_change_spec w a b op Hok) as (r1 & Hr1 & Hok1 & Hb1).
  destruct (bit_change_spec r1 a b op Hok1) as (r2 & Hr2 & Hok2 & Hb2).
  exists r1, r2. split_and!; [done..|].
  destruct op; (apply test_same_reads; [done..|]); intros i; rewrite Hb2, ?Hb1;
    destruct (bool_decide _), (test w i); done.
Qed.

Lemma range_twice_witness :
  ∃ r1 r2, bit_change (from_bit_indices [3; 64]) 2 70 flip_bit = Some r1
    ∧ bit_change r1 2 70 flip_bit = Some r2
    ∧ same_reads r2 (from_bit_indices [3; 64]).
Proof.
  apply (range_twice (from_bit_indices [3; 64]) 2 70 flip_bit). reflexivity.
Defined.

(** X8. A reset that starts at or past the end of the buffer writes
    nothing and allocates nothing: the object comes back as it was, a
    null buffer included. *)
Theorem reset_past_end_is_noop w a b i :
  (size_of w ≤ (a `min` b) / digits → bit_change w a b reset_bit = Some w)
  ∧ (size_of w ≤ i / digits → bit_change1 w i reset_bit = Some w).
Proof.
  split.
  - assert (∀ lo hi, lo ≤ hi → size_of w ≤ lo / digits →
              bit_change w lo hi reset_bit = Some w) as Hsorted.
    { intros lo hi Hle Hsz. unfold bit_change. rewrite decide_False by lia.
      cbv zeta. cbn [is_reset negb]. rewrite andb_false_r.
      assert (lo / digits ≤ hi / digits) as Hdiv
        by (apply Nat.Div0.div_le_mono; lia).
      unfold change_word.
      destruct (decide (lo / digits = hi / digits)) as [Heq|Hne].
      - by rewrite decide_False by lia.
      - rewrite decide_False by lia. cbn [mbind option_bind].
        rewrite decide_False by lia. cbn [mbind option_bind].
        by rewrite decide_False by lia. }
    intros Hsz. destruct (decide (a ≤ b)).
    + rewrite Nat.min_l in Hsz by lia. by apply Hsorted.
    + rewrite Nat.min_r in Hsz by lia. rewrite bit_change_swap.
      apply Hsorted; [lia | done].
  - intros Hsz. unfold bit_change1. cbv zeta. cbn [is_reset negb].
    rewrite andb_false_r. unfold change_word. by rewrite decide_False by lia.
Qed.

Lemma reset_past_end_is_noop_witness :
  bit_change zero 5 100 reset_bit = Some zero
  ∧ bit_change1 (from_uintmax 5) 32 reset_bit = Some (from_uintmax 5).
Proof.
  split.
  - apply (reset_past_end_is_noop zero 5 100 0). vm_compute. lia.
  - apply (reset_past_end_is_noop (from_uintmax 5) 0 0 32). vm_compute. lia.
Defined.

(** ** The buffer and the length under mutation *)

Lemma grow_if_size w ti op :
  size_of (if bool_decide (size_of w ≤ ti) && negb (is_reset op)
           then grow w (ti + 1) else w)
  = if is_reset op then size_of w else size_of w `max` (ti + 1).
Proof.
  case_bool_decide as Hs; destruct (is_reset op); cbn [andb negb]; try lia.
  destruct (grow_spec w (ti + 1)) as [-> _]; lia.
Qed.

Lemma bit_change_sorted_size w lo hi op :
  lo ≤ hi → big_whole_ok w = true →
  ∃ w', bit_change w lo hi op = Some w'
    ∧ size_of w' = if is_reset op then size_of w
                   else size_of w `max` (hi / digits + 1).
Proof.
  intros Hle Hok. rewrite <- grow_if_size.
  unfold bit_change. rewrite decide_False by lia. cbv zeta.
  destruct (grow_if w (hi / digits) op) as (Hsz & Hw1 & Hlt).
  set (w1 := if bool_decide (size_of w ≤ hi / digits) && negb (is_reset op)
             then grow w (hi / digits + 1) else w) in *.
  rewrite Hsz.
  assert (lo / digits ≤ hi / digits) as Hdiv by (apply Nat.Div0.div_le_mono; lia).
  assert (big_whole_ok w1 = true) as Hok1.
  { apply words_ok_pointwise. intros k. rewrite Hw1. by apply word_at_ok. }
  destruct (decide (lo / digits = hi / digits)) as [Heq|Hne].
  - destruct (change_word_spec op (lo / digits)
                (Z.land (wnot (wsub (wshl 1 (lo mod digits)) 1))
                        (Z.lor (wshl 1 (hi mod digits))
                               (wsub (wshl 1 (hi mod digits)) 1))) w1)
      as (w' & -> & Hs & _); [by rewrite Heq|].
    by exists w'.
  - destruct (change_word_spec op (lo / digits)
                (wnot (wsub (wshl 1 (lo mod digits)) 1)) w1)
      as (w2 & -> & Hs2 & Hw2).
    { intros Hop. specialize (Hlt Hop). lia. }
    cbn [mbind option_bind].
    assert (big_whole_ok w2 = true) as Hok2.
    { apply words_ok_pointwise. intros k. rewrite Hw2.
      pose proof (word_at_ok w1 k Hok1).
      destruct (decide (k = lo / digits)); [|done].
      apply apply_op_ok; [apply fm_ok | done]. }
    set (stop := size_of w1 `min` (hi / digits)).
    assert (∃ w3,
      (if decide (lo / digits + 1 < stop)
       then change_slice op (lo / digits + 1) (stop - (lo / digits + 1)) w2
       else Some w2) = Some w3
      ∧ size_of w3 = size_of w1) as (w3 & -> & Hs3).
    { destruct (decide (lo / digits + 1 < stop)) as [Hmid|Hmid].
      - destruct (change_slice_spec op (lo / digits + 1) (stop - (lo / digits + 1)) w2)
          as (w3 & -> & Hs3 & _); [done | lia | lia |].
        exists w3. split; [done | congruence].
      - by exists w2. }
    cbn [mbind option_bind]. rewrite <- Hs3.
    destruct (change_word_spec op (hi / digits)
                (Z.lor (wshl 1 (hi mod digits)) (wsub (wshl 1 (hi mod digits)) 1)) w3)
      as (w4 & -> & Hs4 & _).
    { intros Hop. specialize (Hlt Hop). lia. }
    exists w4. split; [done | congruence].
Qed.

(** X9. No mutation shrinks the buffer: a reset keeps its size, a set
    or a flip keeps it or extends it to exactly the word of the highest
    index touched. *)
Theorem buffer_never_shrinks w a b i op :
  big_whole_ok w = true →
  (∃ r, bit_change w a b op = Some r
     ∧ size_of r = if is_reset op then size_of w
                   else size_of w `max` ((a `max` b) / digits + 1))
  ∧ (∃ r, bit_change1 w i op = Some r
       ∧ size_of r = if is_reset op then size_of w
                     else size_of w `max` (i / digits + 1)).
Proof.
  intros Hok. split.
  - destruct (decide (a ≤ b)).
    + rewrite (Nat.max_r a b) by lia. by apply bit_change_sorted_size.
    + rewrite (Nat.max_l a b), bit_change_swap by lia.
      apply bit_change_sorted_size; [lia | done].
  - rewrite <- grow_if_size. unfold bit_change1. cbv zeta.
    destruct (grow_if w (i / digits) op) as (Hsz & _ & Hlt).
    rewrite Hsz.
    destruct (change_word_spec op (i / digits) (wshl 1 (i mod digits)) _ Hlt)
      as (r & -> & Hs & _).
    by exists r.
Qed.

Lemma buffer_never_shrinks_witness :
  (∃ r, bit_change (from_uintmax 5) 100 40 set_bit = Some r
     ∧ size_of r = size_of (from_uintmax 5) `max` ((100 `max` 40) / digits + 1))
  ∧ (∃ r, bit_change1 (from_uintmax 5) 0 set_bit = Some r
       ∧ size_of r = size_of (from_uintmax 5) `max` (0 / digits + 1)).
Proof.
  apply (buffer_never_shrinks (from_uintmax 5) 100 40 0 set_bit). reflexivity.
Defined.

(** X10. Setting bits can only raise the length, to one past the
    highest index set: [length] after [set(from, to)] is the larger of
    the old length and [max(from, to) + 1], and after [set(i)] the
    larger of the old length and [i + 1]. *)
Theorem length_after_set w a b i :
  big_whole_ok w = true →
  (∃ r, set_range w a b = Some r ∧ length_ r = length_ w `max` (a `max` b + 1))
  ∧ (∃ r, set w i = Some r ∧ length_ r = length_ w `max` (i + 1)).
Proof.
  intros Hok. destruct (length_spec w Hok) as (_ & Habove & Htop). split.
  - destruct (bit_change_spec w a b set_bit Hok) as (r & Hr & Hokr & Hb).
    exists r. split; [done|]. apply length_unique; [done | |].
    + intros j Hj. rewrite Hb, bool_decide_eq_false_2 by lia.
      rewrite op_bit_false, test_bit_of. apply Habove. lia.
    + intros _. rewrite Hb. cbn [op_bit].
      destruct (decide (length_ w ≤ a `max` b + 1)).
      * rewrite (Nat.max_r (length_ w)) by lia. rewrite bool_decide_eq_true_2 by lia.
        apply orb_true_r.
      * rewrite (Nat.max_l (length_ w)) by lia. rewrite test_bit_of, Htop by lia. done.
  - destruct (bit_change1_spec w i set_bit Hok) as (r & Hr & Hokr & Hb).
    exists r. split; [done|]. apply length_unique; [done | |].
    + intros j Hj. rewrite Hb, bool_decide_eq_false_2 by lia.
      rewrite op_bit_false, test_bit_of. apply Habove. lia.
    + intros _. rewrite Hb. cbn [op_bit].
      destruct (decide (length_ w ≤ i + 1)).
      * rewrite Nat.max_r by lia. rewrite bool_decide_eq_true_2 by lia.
        apply orb_true_r.
      * rewrite Nat.max_l by lia. rewrite test_bit_of, Htop by lia. done.
Qed.

Lemma length_after_set_witness :
  (∃ r, set_range (from_uintmax 5) 40 9 = Some r
     ∧ length_ r = length_ (from_uintmax 5) `max` (40 `max` 9 + 1))
  ∧ (∃ r, set (from_uintmax 5) 1 = Some r
       ∧ length_ r = length_ (from_uintmax 5) `max` (1 + 1)).
Proof.
  apply (length_after_set (from_uintmax 5) 40 9 1). reflexivity.
Defined.

(** X11. Resetting bits never raises the length, although the buffer
    keeps its size. *)
Theorem length_after_reset w a b i :
  big_whole_ok w = true →
  (∃ r, reset_range w a b = Some r ∧ length_ r ≤ length_ w)
  ∧ (∃ r, reset w i = Some r ∧ length_ r ≤ length_ w).
Proof.
  intros Hok. split.
  - destruct (bit_change_spec w a b reset_bit Hok) as (r & Hr & Hokr & Hb).
    exists r. split; [done|]. apply length_mono; [done..|].
    intros j. rewrite Hb. cbn [op_bit]. by intros [? _]%andb_true_iff.
  - destruct (bit_change1_spec w i reset_bit Hok) as (r & Hr & Hokr & Hb).
    exists r. split; [done|]. apply length_mono; [done..|].
    intros j. rewrite Hb. cbn [op_bit]. by intros [? _]%andb_true_iff.
Qed.

Lemma length_after_reset_witness :
  (∃ r, reset_range (from_uintmax 300) 8 2 = Some r
     ∧ length_ r ≤ length_ (from_uintmax 300))
  ∧ (∃ r, reset (from_uintmax 300) 8 = Some r
       ∧ length_ r ≤ length_ (from_uintmax 300)).
Proof.
  apply (length_after_reset (from_uintmax 300) 8 2 8). reflexivity.
Defined.

(** ** The index list, the mask and the population count *)

Lemma StronglySorted_lt_app (l1 l2 : list nat) :
  StronglySorted lt l1 → StronglySorted lt l2 →
  (∀ x y, x ∈ l1 → y ∈ l2 → x < y) →
  StronglySorted lt (l1 ++ l2).
Proof.
  induction l1 as [|a l1 IH]; intros H1 H2 Hlt; cbn [app]; [exact H2|].
  inversion_clear H1 as [|?? Hs Hall]. constructor.
  - apply IH; [done..|]. intros x y Hx Hy. apply Hlt; [by right | done].
  - apply Forall_app. split; [done|].
    apply Forall_forall. intros y Hy.
    apply Hlt; [by constructor | first [done | by apply list_elem_of_In]].
Qed.

Lemma word_bit_indices_sorted w cnt : ∀ j jj,
  j + cnt ≤ digits → StronglySorted lt (word_bit_indices w j jj cnt).
Proof.
  induction cnt as [|cnt IH]; intros j jj Hj; cbn [word_bit_indices];
    [constructor|].
  apply StronglySorted_lt_app; [|apply IH; lia|].
  - destruct (nonzero _); repeat constructor.
  - intros x y Hx Hy.
    apply elem_of_word_bit_indices in Hy as (t & _ & -> & _); [|lia].
    destruct (nonzero _); [|by apply elem_of_nil in Hx].
    apply list_elem_of_singleton in Hx as ->. lia.
Qed.

Lemma to_bit_indices_loop_sorted (v : list Z) : ∀ ii,
  StronglySorted lt (to_bit_indices_loop v ii).
Proof.
  induction v as [|w v IH]; intros ii; cbn [to_bit_indices_loop]; [constructor|].
  apply StronglySorted_lt_app; [by apply word_bit_indices_sorted | apply IH |].
  intros x y Hx Hy.
  apply elem_of_word_bit_indices in Hx as (t & Ht & -> & _); [|done].
  apply elem_of_to_bit_indices_loop in Hy as [Hy _]. lia.
Qed.

Lemma StronglySorted_lt_NoDup (l : list nat) : StronglySorted lt l → NoDup l.
Proof.
  induction 1 as [|a l Hs IH Hall]; [constructor|].
  apply list.NoDup_cons. split; [|done].
  intros Hin. rewrite Forall_forall in Hall.
  assert (a < a); [|lia]. apply Hall. first [done | by apply list_elem_of_In].
Qed.

(** X12. [to_bit_indices] lists the set bits in strictly ascending
    order, each once: an index is listed exactly when [test] holds for
    it. *)
Theorem to_bit_indices_ascending w :
  StronglySorted lt (to_bit_indices w)
  ∧ NoDup (to_bit_indices w)
  ∧ ∀ i, i ∈ to_bit_indices w ↔ test w i = true.
Proof.
  assert (StronglySorted lt (to_bit_indices w)) as Hs.
  { rewrite to_bit_indices_words. apply to_bit_indices_loop_sorted. }
  split_and!; [done | by apply StronglySorted_lt_NoDup |].
  intros i. apply elem_of_to_bit_indices.
Qed.

Lemma length_mask_assign_true (l : list nat) : ∀ temp : list bool,
  length (mask_assign_true l temp) = length temp.
Proof.
  unfold mask_assign_true. induction l as [|k l IH]; intros temp; cbn [fold_left];
    [done|]. by rewrite IH, length_insert.
Qed.

(** X13. [to_bit_vector] returns a mask of exactly [length()] entries,
    entry [i] being [test(i)]; for the zero value it is empty. *)
Theorem to_bit_vector_shape w :
  big_whole_ok w = true →
  length (to_bit_vector w) = length_ w
  ∧ ∀ i, nth i (to_bit_vector w) false = test w i.
Proof.
  intros Hok. split; [|intros i; apply to_bit_vector_nth].
  symmetry. unfold to_bit_vector. cbv zeta. case_decide as Hne.
  - rewrite length_mask_assign_true, length_replicate.
    assert (to_bit_indices w ≠ []) as Hne' by (intros E; by rewrite E in Hne).
    apply length_unique; [done | |].
    + intros i Hi. destruct (test w i) eqn:E; [|done].
      apply elem_of_to_bit_indices, max_list_elem_of_le in E. lia.
    + intros _. replace (max_list (to_bit_indices w) + 1 - 1)
        with (max_list (to_bit_indices w)) by lia.
      by apply elem_of_to_bit_indices, max_list_elem_of.
  - cbn [length]. apply length_unique; [done | | lia].
    intros i _. destruct (test w i) eqn:E; [|done].
    apply elem_of_to_bit_indices in E.
    destruct (to_bit_indices w); [by apply elem_of_nil in E | simpl in Hne; lia].
Qed.

Lemma to_bit_vector_shape_witness :
  length (to_bit_vector (mk_big_whole (Some [0%Z; 6%Z; 0%Z])))
  = length_ (mk_big_whole (Some [0%Z; 6%Z; 0%Z]))
  ∧ ∀ i, nth i (to_bit_vector (mk_big_whole (Some [0%Z; 6%Z; 0%Z]))) false
         = test (mk_big_whole (Some [0%Z; 6%Z; 0%Z])) i.
Proof.
  apply (to_bit_vector_shape (mk_big_whole (Some [0%Z; 6%Z; 0%Z]))). reflexivity.
Defined.

Lemma to_word_add_l a b : to_word (to_word a + b) = to_word (a + b).
Proof. unfold to_word. apply Z.add_mod_idemp_l. by vm_compute. Qed.

Lemma shiftr_zero_bits w (j : nat) :
  Z.shiftr w (Z.of_nat j) = 0%Z → ∀ t : nat, Z.testbit w (Z.of_nat (j + t)) = false.
Proof.
  intros H t. apply (f_equal (λ z, Z.testbit z (Z.of_nat t))) in H.
  rewrite Z.shiftr_spec, Z.bits_0 in H by lia. rewrite <- H. f_equal. lia.
Qed.

Lemma word_bit_indices_nil w cnt : ∀ j jj,
  j + cnt ≤ digits →
  (∀ t : nat, Z.testbit w (Z.of_nat (j + t)) = false) →
  word_bit_indices w j jj cnt = [].
Proof.
  induction cnt as [|cnt IH]; intros j jj Hj Hz; cbn [word_bit_indices]; [done|].
  rewrite nonzero_wshl_land by lia. specialize (Hz 0) as H0.
  rewrite Nat.add_0_r in H0. rewrite H0. cbn [app]. apply IH; [lia|].
  intros t. replace (S j + t) with (j + S t) by lia. apply Hz.
Qed.

(** The loop of [count_set_bits_for_word], entered at bit [j]. *)
Lemma count_set_bits_loop_spec w cnt : ∀ j jj c,
  j + cnt ≤ digits →
  count_set_bits_loop (Z.shiftr w (Z.of_nat j)) (to_word c) cnt
  = to_word (c + Z.of_nat (length (word_bit_indices w j jj cnt))).
Proof.
  induction cnt as [|cnt IH]; intros j jj c Hj; cbn [count_set_bits_loop].
  { cbn [word_bit_indices length]. by rewrite Z.add_0_r. }
  destruct (nonzero (Z.shiftr w (Z.of_nat j))) eqn:E.
  - cbn [word_bit_indices]. rewrite Z.shiftr_shiftr by lia.
    replace (Z.of_nat j + 1)%Z with (Z.of_nat (S j)) by lia.
    unfold wadd. rewrite to_word_add_l, (IH (S j) (S jj)) by lia.
    rewrite nonzero_wshl_land by lia.
    change 1%Z with (wshl 1 0) at 1.
    rewrite nonzero_land_wshl by (unfold digits; lia).
    rewrite Z.shiftr_spec by lia.
    replace (Z.of_nat 0 + Z.of_nat j)%Z with (Z.of_nat j) by lia.
    f_equal. destruct (Z.testbit w (Z.of_nat j)); cbn [app length]; lia.
  - apply nonzero_false in E.
    rewrite (word_bit_indices_nil w (S cnt) j jj) by
      (done || by apply shiftr_zero_bits).
    cbn [length]. by rewrite Z.add_0_r.
Qed.

Lemma count_set_bits_for_word_spec w jj :
  count_set_bits_for_word w = Z.of_nat (length (word_bit_indices w 0 jj digits)).
Proof.
  unfold count_set_bits_for_word.
  pose proof (count_set_bits_loop_spec w digits 0 jj 0 ltac:(lia)) as H.
  rewrite Z.shiftr_0_r in H. change (to_word 0) with 0%Z in H.
  rewrite H. rewrite Z.add_0_l. apply to_word_id, word_ok_iff.
  assert (∀ cnt j jj, length (word_bit_indices w j jj cnt) ≤ cnt) as Hle.
  { clear. induction cnt as [|cnt IH]; intros j jj; cbn [word_bit_indices]; [done|].
    rewrite length_app. specialize (IH (S j) (S jj)).
    destruct (nonzero _); cbn [length]; lia. }
  specialize (Hle digits 0 jj).
  change (2 ^ Z.of_nat digits)%Z with 4294967296%Z. unfold digits in *. lia.
Qed.

Lemma count_fold (v : list Z) : ∀ ii a,
  fold_left wadd (count_set_bits_for_word <$> v) (to_word a)
  = to_word (a + Z.of_nat (length (to_bit_indices_loop v ii))).
Proof.
  induction v as [|w v IH]; intros ii a;
    cbn [fmap list_fmap fold_left to_bit_indices_loop].
  { cbn [length]. by rewrite Z.add_0_r. }
  unfold wadd at 2. rewrite to_word_add_l, (IH (ii + digits)).
  rewrite (count_set_bits_for_word_spec w ii), length_app. f_equal. lia.
Qed.

Lemma count_population w :
  Z.of_nat (count w) = to_word (Z.of_nat (length (to_bit_indices w))).
Proof.
  rewrite count_words, to_bit_indices_words.
  pose proof (count_fold (words w) 0 0) as H.
  change (to_word 0) with 0%Z in H. rewrite H, ?Z.add_0_l.
  rewrite Z2Nat.id; [done|]. apply to_word_range.
Qed.

(** X14. [count] is the number of set bits, that is of indices
    [to_bit_indices] lists, reduced modulo the word width as the sum is
    taken in [word_type]; below that width it is the number itself. *)
Theorem count_is_population w :
  Z.of_nat (count w) = to_word (Z.of_nat (length (to_bit_indices w)))
  ∧ ((Z.of_nat (length (to_bit_indices w)) < 2 ^ Z.of_nat digits)%Z →
     count w = length (to_bit_indices w)).
Proof.
  split; [apply count_population|]. intros Hlt.
  pose proof (count_population w) as Hc.
  rewrite to_word_id in Hc by (apply word_ok_iff; lia). lia.
Qed.

(** X15. Population bound: [count] never exceeds [length]. *)
Theorem count_le_length w :
  big_whole_ok w = true → count w ≤ length_ w.
Proof.
  intros Hok.
  assert (length (to_bit_indices w) ≤ length_ w) as Hlen.
  { apply Nat.le_trans with (length (seq 0 (length_ w))); [|by rewrite length_seq].
    apply submseteq_length, NoDup_submseteq.
    { apply StronglySorted_lt_NoDup. rewrite to_bit_indices_words.
      apply to_bit_indices_loop_sorted. }
    intros i Hi%elem_of_to_bit_indices. apply elem_of_seq. split; [lia|].
    destruct (decide (i < length_ w)) as [|Hge]; [lia|].
    destruct (length_spec w Hok) as (_ & Habove & _).
    rewrite test_bit_of, Habove in Hi by lia. done. }
  pose proof (count_population w) as Hc. unfold to_word in Hc.
  assert (Z.of_nat (length (to_bit_indices w)) mod 2 ^ Z.of_nat digits
          ≤ Z.of_nat (length (to_bit_indices w)))%Z
    by (apply Z.mod_le; [lia | by vm_compute]).
  lia.
Qed.

Lemma count_le_length_witness :
  count (mk_big_whole (Some [7%Z; 0%Z; 9%Z; 0%Z]))
  ≤ length_ (mk_big_whole (Some [7%Z; 0%Z; 9%Z; 0%Z])).
Proof.
  apply (count_le_length (mk_big_whole (Some [7%Z; 0%Z; 9%Z; 0%Z]))). reflexivity.
Defined.

(** ** [tests] and [reverse] *)

Lemma test_tests_sorted w lo hi i :
  lo ≤ hi →
  test (tests w lo hi) i = test w (i + lo) && bool_decide (i + lo ≤ hi).
Proof.
  intros Hle. unfold tests. rewrite decide_False by lia. cbv zeta.
  set (new_ids := filter (λ x, lo ≤ x ∧ x ≤ hi) (to_bit_indices w)).
  assert ((if decide (length new_ids ≠ 0)
           then (λ x, x - lo) <$> new_ids else new_ids)
          = (λ x, x - lo) <$> new_ids) as ->.
  { case_decide as Hn; [done|]. by destruct new_ids; [|simpl in Hn; lia]. }
  rewrite test_from_bit_indices.
  destruct (test w (i + lo) && bool_decide (i + lo ≤ hi)) eqn:E.
  - apply andb_true_iff in E as [Ht Hi%bool_decide_eq_true].
    apply bool_decide_eq_true_2, list_elem_of_fmap. exists (i + lo).
    split; [lia|]. apply list_elem_of_filter. split; [lia|].
    by apply elem_of_to_bit_indices.
  - apply bool_decide_eq_false_2. intros (x & -> & Hx)%list_elem_of_fmap.
    apply list_elem_of_filter in Hx as [Hr Hx%elem_of_to_bit_indices].
    replace (x - lo + lo) with x in E by lia.
    rewrite Hx, bool_decide_eq_true_2 in E by lia. done.
Qed.

Lemma tests_swap w a b : tests w a b = tests w b a.
Proof.
  unfold tests. destruct (decide (b < a)), (decide (a < b)); try done; try lia.
  by replace b with a by lia.
Qed.

(** X16. [tests(from, to)] returns the bits of the receiver between the
    endpoints, given in either order, moved down so that the lower
    endpoint becomes bit 0; nothing else is set. *)
Theorem tests_bits w a b i :
  test (tests w a b) i
  = test w (i + a `min` b) && bool_decide (i + a `min` b ≤ a `max` b).
Proof.
  destruct (decide (a ≤ b)).
  - rewrite Nat.min_l, Nat.max_r by lia. by apply test_tests_sorted.
  - rewrite Nat.min_r, Nat.max_l, tests_swap by lia.
    apply test_tests_sorted. lia.
Qed.

Lemma test_reverse_cap w cap i :
  test (reverse_cap w cap) i = bool_decide (i ≤ cap) && test w (cap - i).
Proof.
  unfold reverse_cap. cbv zeta. rewrite test_from_bit_indices.
  destruct (bool_decide (i ≤ cap) && test w (cap - i)) eqn:E.
  - apply andb_true_iff in E as [Hi%bool_decide_eq_true Ht].
    apply bool_decide_eq_true_2, list_elem_of_fmap. exists (cap - i).
    split; [lia|]. apply list_elem_of_filter. split; [lia|].
    by apply elem_of_to_bit_indices.
  - apply bool_decide_eq_false_2. intros (x & -> & Hx)%list_elem_of_fmap.
    apply list_elem_of_filter in Hx as [Hr Hx%elem_of_to_bit_indices].
    replace (cap - (cap - x)) with x in E by lia.
    rewrite Hx, bool_decide_eq_true_2 in E by lia. done.
Qed.



(** X19. [reverse()] mirrors the bits within the length: bit [i] of the
    result is bit [length - 1 - i] of the receiver for [i < length], so
    a non-zero value comes back with bit 0 set and no longer than
    before, and zero comes back as zero. *)
Theorem reverse_bits w :
  big_whole_ok w = true →
  (∀ i, test (reverse w) i
        = bool_decide (i < length_ w) && test w (length_ w - 1 - i))
  ∧ (any w = true → test (reverse w) 0 = true)
  ∧ length_ (reverse w) ≤ length_ w.
Proof.
  intros Hok. destruct (length_spec w Hok) as (Hz & Habove & Htop).
  assert (any w = false → length_ w = 0) as Hzero.
  { intros Hany. apply Hz. by apply any_false_iff. }
  assert (any w = true → 0 < length_ w) as Hpos.
  { intros Hany. destruct (length_ w) eqn:E; [|lia].
    assert (any w = false); [|congruence].
    apply any_false_iff; [done|]. by apply Hz. }
  assert (∀ i, test (reverse w) i
               = bool_decide (i < length_ w) && test w (length_ w - 1 - i)) as Hb.
  { intros i. unfold reverse. destruct (any w) eqn:Hany.
    - specialize (Hpos eq_refl). rewrite test_reverse_cap.
      f_equal. apply bool_decide_ext. lia.
    - rewrite copy_id, (Hzero eq_refl).
      rewrite (bool_decide_eq_false_2 (i < 0)) by lia.
      rewrite test_bit_of. apply Habove. rewrite (Hzero eq_refl). lia. }
  assert (big_whole_ok (reverse w) = true) as Hokr.
  { unfold reverse. destruct (any w); [apply from_bit_indices_ok|].
    by rewrite copy_id. }
  split_and!; [done | |].
  - intros Hany. specialize (Hpos Hany).
    rewrite Hb, bool_decide_eq_true_2, Nat.sub_0_r, test_bit_of by lia.
    by apply Htop.
  - destruct (length_spec (reverse w) Hokr) as (_ & _ & Htopr).
    destruct (decide (length_ (reverse w) ≤ length_ w)) as [|Hgt]; [done|].
    specialize (Htopr ltac:(lia)).
    rewrite <- test_bit_of, Hb, bool_decide_eq_false_2 in Htopr by lia. done.
Qed.

Lemma reverse_bits_witness :
  (∀ i, test (reverse (from_uintmax 6)) i
        = bool_decide (i < length_ (from_uintmax 6))
          && test (from_uintmax 6) (length_ (from_uintmax 6) - 1 - i))
  ∧ (any (from_uintmax 6) = true → test (reverse (from_uintmax 6)) 0 = true)
  ∧ length_ (reverse (from_uintmax 6)) ≤ length_ (from_uintmax 6).
Proof. apply (reverse_bits (from_uintmax 6)). reflexivity. Defined.

(** ** The static helpers *)

(** X20. [words_for_bits] is the least number of words that hold the
    given number of bits: none for no bits, and otherwise enough words
    with fewer than a word to spare. *)
Theorem words_for_bits_ceiling bits :
  bits ≤ words_for_bits bits * digits
  ∧ words_for_bits bits * digits < bits + digits
  ∧ words_for_bits 0 = 0.
Proof.
  split_and!; [apply words_for_bits_enough | | reflexivity].
  unfold words_for_bits. destruct (index_split bits) as [H1 H2].
  case_decide; unfold digits in *; lia.
Qed.

(** X21. [blength] of a word is the position of its highest set bit
    plus one, and 0 for the word 0. *)
Theorem blength_is_log2 w :
  word_ok w = true →
  Z.of_nat (blength w) = if decide (w = 0%Z) then 0%Z else (Z.log2 w + 1)%Z.
Proof.
  intros Hok. case_decide as H0.
  - subst w. reflexivity.
  - pose proof (blength_pos w Hok H0) as Hpos.
    destruct (blength w) as [|b] eqn:E; [lia|].
    pose proof (blength_top w b E) as Htop.
    assert (0 < w)%Z as Hw by (apply word_ok_iff in Hok; lia).
    assert (Z.log2 w = Z.of_nat b); [|lia].
    pose proof (Z.log2_nonneg w).
    apply Z.le_antisymm.
    + destruct (Z.le_gt_cases (Z.log2 w) (Z.of_nat b)) as [|Hgt]; [done|].
      pose proof (Z.bit_log2 w Hw) as Hbit.
      rewrite <- (Z2Nat.id (Z.log2 w)) in Hbit by lia.
      rewrite blength_above in Hbit; [done | done | lia].
    + destruct (Z.le_gt_cases (Z.of_nat b) (Z.log2 w)) as [|Hgt]; [done|].
      rewrite Z.bits_above_log2 in Htop by lia. done.
Qed.

Lemma blength_is_log2_witness :
  Z.of_nat (blength 4096) = if decide (4096%Z = 0%Z) then 0%Z else (Z.log2 4096 + 1)%Z.
Proof. apply (blength_is_log2 4096). reflexivity. Defined.

(** X22. [wlength] counts the words up to the highest non-zero one: it
    never exceeds the size, every word from it on is zero, and cutting
    the array there leaves a canonical array that spells the same
    value. *)
Theorem wlength_trims (v : list Z) :
  wlength v ≤ length v
  ∧ (∀ k, wlength v ≤ k → nth k v 0%Z = 0%Z)
  ∧ canonical (take (wlength v) v)
  ∧ va_equiv (take (wlength v) v) v.
Proof.
  split_and!.
  - apply wlength_le.
  - apply wlength_above.
  - apply canonical_trim.
  - intros k. rewrite !nth_lookup.
    destruct (decide (k < wlength v)) as [Hlt|Hge].
    + by rewrite lookup_take_lt.
    + rewrite lookup_take_ge by lia. cbn [default from_option].
      rewrite <- nth_lookup. symmetry. apply wlength_above. lia.
Qed.

(** ** Truth value and [not_self] *)

(** X23. The conversion to a truth value, like [any], holds exactly
    when some bit is set; [none] holds exactly when no bit is set, which
    is when [to_bit_indices] is empty. *)
Theorem truth_value w :
  big_whole_ok w = true →
  (operator_bool w = true ↔ ∃ i, test w i = true)
  ∧ (none w = true ↔ ∀ i, test w i = false)
  ∧ (none w = true ↔ to_bit_indices w = []).
Proof.
  intros Hok.
  assert (none w = true ↔ ∀ i, test w i = false) as Hnone.
  { unfold none. rewrite negb_true_iff. split.
    - intros Hany i. rewrite test_bit_of. apply words_zero_bits.
      by apply any_false_iff.
    - intros Hz. destruct (any w) eqn:E; [|done].
      apply any_true_iff in E as [i Hi]; [|done]. by rewrite Hz in Hi. }
  split_and!; [by apply any_true_iff | done |].
  rewrite Hnone. split.
  - intros Hz. destruct (to_bit_indices w) as [|x l] eqn:E; [done|].
    assert (x ∈ to_bit_indices w) as Hx by (rewrite E; by left).
    apply elem_of_to_bit_indices in Hx. by rewrite Hz in Hx.
  - intros E i. destruct (test w i) eqn:Ht; [|done].
    apply elem_of_to_bit_indices in Ht. rewrite E in Ht.
    by apply elem_of_nil in Ht.
Qed.

Lemma truth_value_witness :
  (operator_bool (mk_big_whole (Some [0%Z; 0%Z])) = true
   ↔ ∃ i, test (mk_big_whole (Some [0%Z; 0%Z])) i = true)
  ∧ (none (mk_big_whole (Some [0%Z; 0%Z])) = true
     ↔ ∀ i, test (mk_big_whole (Some [0%Z; 0%Z])) i = false)
  ∧ (none (mk_big_whole (Some [0%Z; 0%Z])) = true
     ↔ to_bit_indices (mk_big_whole (Some [0%Z; 0%Z])) = []).
Proof. apply (truth_value (mk_big_whole (Some [0%Z; 0%Z]))). reflexivity. Defined.

(** X24. [not_self] flips the truth value and does not keep the value:
    applied twice it gives back the truth value, as one for whatever was
    non-zero and as the null buffer for whatever was zero. *)
Theorem not_self_twice w :
  any (not_self w) = negb (any w)
  ∧ any (not_self (not_self w)) = any w
  ∧ x_ (not_self (not_self w)) = if any w then Some [1%Z] else None.
Proof.
  destruct (any w) eqn:E; unfold not_self; rewrite E; split_and!; reflexivity.
Qed.

(** ** [bits_assign], once more *)



(** ** Construction from an index list and from a mask, once more *)





(** X29. False entries at the end of a mask do not matter: the mask
    with [n] more false entries constructs a value with the same reads,
    held in a buffer that may be longer. *)
Theorem mask_construction_padding (b : list bool) (n : nat) :
  same_reads (from_bit_vector (b ++ replicate n false)) (from_bit_vector b)
  ∧ size_of (from_bit_vector b) ≤ size_of (from_bit_vector (b ++ replicate n false)).
Proof.
  split.
  - apply test_same_reads; [apply from_bit_vector_ok..|].
    intros i. rewrite !test_from_bit_vector, !nth_lookup.
    destruct (decide (i < length b)) as [Hlt|Hge].
    + by rewrite lookup_app_l.
    + rewrite lookup_app_r, (lookup_ge_None_2 b) by lia. cbn [default from_option].
      destruct (replicate n false !! (i - length b)) eqn:E; [|done].
      by apply lookup_replicate in E as [-> _].
  - cbn [size_of from_bit_vector x_]. rewrite !bit_vector_to_va_length.
    rewrite length_app, length_replicate. unfold words_for_bits.
    destruct (index_split (length b)) as [H1 H2],
             (index_split (length b + n)) as [H3 H4].
    repeat case_decide; unfold digits in *; lia.
Qed.

End BigWhole.
